(** * pyGSTi: fiducial-pair reduction and the DataSet container

    A shallow embedding of
      - [packages/pygsti/objects/dataset.py]: the [DataSet] count table and
        the periodic compression of gate-string tuples, and
      - [packages/pygsti/algorithms/fiducialpairreduction.py]: the
        amplification test and the search for a sufficient set of fiducial
        pairs.

    Conventions of the embedding.
      - Python integers are [Z] (or [nat] where the code only counts).
      - Floating-point values (counts, singular values, tolerances, scores)
        are exact rationals [Q]: comparisons and sums are modelled, rounding
        is not.  The one exception is the discrepancy test of
        [add_counts_1q], which rounding decides at ordinary counts: its two
        fractions are computed and compared in binary64, on the kernel's
        floating-point numbers.
      - Python exceptions are values of [exn]; a call either returns or
        raises, see [result].
      - [while] loops carry an explicit fuel; the theorems show that the
        fuel handed to them is never exhausted. *)

From Stdlib Require Import String Ascii.
From Stdlib Require Import List ZArith QArith Qabs Qround.
From Stdlib Require Import Bool Arith Lia Permutation Sorted.
From Stdlib Require PrimFloat SpecFloat FloatOps.
Import ListNotations.
Import PrimFloat.PrimFloatNotations.

Local Open Scope nat_scope.

(** ** The Python runtime the two modules rely on *)

Module Py.

(** The exceptions the modelled code can raise.  [FuelExhausted] is not a
    Python exception: it marks a [while] loop of the model that was handed too
    little fuel. *)
Inductive exn : Type :=
| ValueError
| AssertionError
| IndexError
| KeyError
| TypeError
| NameError
| ZeroDivisionError
| OverflowError
| FuelExhausted.

Inductive result (A : Type) : Type :=
| Ok (a : A)
| Raise (e : exn).

Arguments Ok {A} a.
Arguments Raise {A} e.

Definition bind {A B : Type} (r : result A) (k : A -> result B) : result B :=
  match r with
  | Ok a => k a
  | Raise e => Raise e
  end.

(** [l[a:b]] for [0 <= a <= b]. *)
Definition slice {A : Type} (l : list A) (a b : nat) : list A :=
  firstn (b - a) (skipn a l).

(** [t * n] for a tuple [t]. *)
Fixpoint tuple_repeat {A : Type} (t : list A) (n : nat) : list A :=
  match n with
  | 0 => []
  | S n' => t ++ tuple_repeat t n'
  end.

(** [l[i] = v] on a list: [IndexError] out of range. *)
Fixpoint list_set {A : Type} (l : list A) (i : nat) (v : A) : result (list A) :=
  match l, i with
  | [], _ => Raise IndexError
  | _ :: t, 0 => Ok (v :: t)
  | x :: t, S i' => bind (list_set t i' v) (fun t' => Ok (x :: t'))
  end.

(** [l[i]] on a list: [IndexError] out of range. *)
Definition list_get {A : Type} (l : list A) (i : nat) : result A :=
  match nth_error l i with
  | Some x => Ok x
  | None => Raise IndexError
  end.

(** Insertion of [x] into a list ordered by [leb]; equal elements keep their
    order of arrival, as in Python's stable [sorted]. *)
Fixpoint insert_sorted {A : Type} (leb : A -> A -> bool) (x : A) (l : list A) : list A :=
  match l with
  | [] => [x]
  | y :: t => if leb y x then y :: insert_sorted leb x t else x :: l
  end.

(** [sorted(l)] for the order [leb]. *)
Definition sorted {A : Type} (leb : A -> A -> bool) (l : list A) : list A :=
  fold_left (fun acc x => insert_sorted leb x acc) l [].

Definition Qltb (x y : Q) : bool := negb (Qle_bool y x).

(** [x > y] on numbers. *)
Definition Qgtb (x y : Q) : bool := Qltb y x.

(** [sum(l)]. *)
Definition Qsum (l : list Q) : Q := fold_left Qplus l 0%Q.

(** Python 2's [round(x)]: to the nearest integer, halves away from zero. *)
Definition py_round (x : Q) : Z :=
  if Qle_bool 0 x then Qfloor (x + (1 # 2)) else Qceiling (x - (1 # 2)).

(** Modelled from the spec: [tools.remove_duplicates] (the module
    [tools/listtools.py] is not among the sources).  The spec's search engine
    draws "a deduplicated, sorted sample": each element is kept once, at its
    first occurrence, and the order of the list is kept. *)
Fixpoint remove_duplicates_acc {A : Type} (eqb : A -> A -> bool)
    (l : list A) (seen : list A) : list A :=
  match l with
  | [] => []
  | x :: t =>
      if existsb (eqb x) seen then remove_duplicates_acc eqb t seen
      else x :: remove_duplicates_acc eqb t (x :: seen)
  end.

Definition remove_duplicates {A : Type} (eqb : A -> A -> bool) (l : list A) : list A :=
  remove_duplicates_acc eqb l [].

(** [collections.OrderedDict], and a [dict] read in its iteration order: the
    items in insertion order, each key once. *)
Section OrderedDict.

Variables K V : Type.
Variable eqb : K -> K -> bool.

Definition OrderedDict : Type := list (K * V).

(** [d.get(k)]: [None] when [k] is no key of [d]. *)
Fixpoint od_get (k : K) (d : OrderedDict) : option V :=
  match d with
  | [] => None
  | (k', v) :: d' => if eqb k k' then Some v else od_get k d'
  end.

(** [k in d]. *)
Definition od_mem (k : K) (d : OrderedDict) : bool :=
  match od_get k d with
  | Some _ => true
  | None => false
  end.

(** [d[k] = v]: a key of [d] keeps its place, a new key goes to the end. *)
Fixpoint od_set (k : K) (v : V) (d : OrderedDict) : OrderedDict :=
  match d with
  | [] => [(k, v)]
  | (k', v') :: d' => if eqb k k' then (k', v) :: d' else (k', v') :: od_set k v d'
  end.

(** [d.keys()] and [d.values()]. *)
Definition od_keys (d : OrderedDict) : list K := map fst d.
Definition od_values (d : OrderedDict) : list V := map snd d.

(** [OrderedDict(pairs)]. *)
Definition od_of_list (pairs : list (K * V)) : OrderedDict :=
  fold_left (fun d kv => od_set (fst kv) (snd kv) d) pairs [].

End OrderedDict.

Arguments od_get {K V} eqb k d.
Arguments od_mem {K V} eqb k d.
Arguments od_set {K V} eqb k v d.
Arguments od_keys {K V} d.
Arguments od_values {K V} d.
Arguments od_of_list {K V} eqb pairs.

(** [a += b] on one-dimensional arrays: element by element when the lengths
    agree, [b] broadcast when it has one element, a [ValueError] otherwise. *)
Definition np_iadd (a b : list Q) : result (list Q) :=
  if length a =? length b then Ok (map (fun xy => (fst xy + snd xy)%Q) (combine a b))
  else match b with
       | [y] => Ok (map (fun x => (x + y)%Q) a)
       | _ => Raise ValueError
       end.

(** *** Doubles

    The kernel's binary64 numbers, for the one test of the code that is
    modelled with its rounding. *)

Import PrimFloat.

(** The double nearest to an integer, ties to the even one, and an
    infinity from [2^1024 - 2^970] on. *)
Definition Z2F (z : Z) : PrimFloat.float :=
  FloatOps.SF2Prim (SpecFloat.binary_normalize FloatOps.prec FloatOps.emax z 0 false).

(** The double a rational of the model stands for.  An integer gives the
    double nearest to it, so every integer up to [2^53] gives itself; a
    double held as a fraction [n / 2^k] gives itself as well. *)
Definition to_float64 (q : Q) : PrimFloat.float :=
  (Z2F (Qnum q) / Z2F (Zpos (Qden q)))%float.

(** The conversion of a Python number to a [float], as [float(x)] and the
    division of a number by a [float] make it: an [OverflowError] for an
    integer too large. *)
Definition py_float (x : Q) : result PrimFloat.float :=
  let f := to_float64 x in
  if PrimFloat.is_infinity f then Raise OverflowError else Ok f.

(** The literal [0.1]: the double nearest to one tenth. *)
Definition float_0_1 : PrimFloat.float := 0x1.999999999999ap-4%float.

End Py.

Import Py.

Notation "x <- r ;; k" := (bind r (fun x => k))
  (at level 61, r at next level, right associativity).

(** ** [objects/dataset.py] *)

Module dataset.

(** A gate label is an opaque token, a gate string a tuple of them. *)
Definition GateLabel : Type := string.
Definition GateString : Type := list GateLabel.

Fixpoint tuple_eqb (a b : GateString) : bool :=
  match a, b with
  | [], [] => true
  | x :: a', y :: b' => String.eqb x y && tuple_eqb a' b'
  | _, _ => false
  end.

(** *** The [DataSet] class *)

Definition SpamLabel : Type := string.

(** The attributes of a [DataSet] object.  [counts] is a list of rows: a
    list of one-dimensional arrays for a mutable data set, the rows of one
    two-dimensional array for a static one. *)
Record DataSet : Type := mkDataSet {
  gsIndex : OrderedDict GateString nat;
  slIndex : OrderedDict SpamLabel nat;
  counts : list (list Q);
  bStatic : bool
}.

(** A method of a [DataSet]: it runs on [self], returns or raises, and
    leaves [self] in a new state either way. *)
Definition M (A : Type) : Type := DataSet -> result A * DataSet.

Definition ret {A : Type} (a : A) : M A := fun self => (Ok a, self).

Definition raise {A : Type} (e : exn) : M A := fun self => (Raise e, self).

Definition bindM {A B : Type} (m : M A) (k : A -> M B) : M B :=
  fun self =>
    match m self with
    | (Ok a, self') => k a self'
    | (Raise e, self') => (Raise e, self')
    end.

Definition lift {A : Type} (r : result A) : M A := fun self => (r, self).

Definition get_self : M DataSet := fun self => (Ok self, self).

Definition put_self (self' : DataSet) : M unit := fun _ => (Ok tt, self').

Notation "x <~ m ;; k" := (bindM m (fun x => k))
  (at level 61, m at next level, right associativity).

Notation "m ;;; k" := (bindM m (fun _ => k))
  (at level 61, right associativity).

(** [[(x,i) for (i,x) in enumerate(l)]]. *)
Definition enumerate {A : Type} (l : list A) : list (A * nat) :=
  combine l (seq 0 (length l)).

(** [DataSet.__init__], without [fileToLoadFrom].  The assertions on
    negative indices hold by the type of the indices. *)
Definition __init__ (counts : option (list (list Q)))
    (gateStrings : option (list GateString))
    (gateStringIndices : option (OrderedDict GateString nat))
    (spamLabels : option (list SpamLabel))
    (spamLabelIndices : option (OrderedDict SpamLabel nat))
    (bStatic : bool) : result DataSet :=
  gsIndex <-
    match gateStringIndices, gateStrings with
    | Some d, _ => Ok d
    | None, Some l => Ok (od_of_list tuple_eqb (enumerate l))
    | None, None => if negb bStatic then Ok [] else Raise ValueError
    end ;;
  slIndex <-
    match spamLabelIndices, spamLabels with
    | Some d, _ => Ok d
    | None, Some l => Ok (od_of_list String.eqb (enumerate l))
    | None, None => Raise ValueError
    end ;;
  match counts with
  | Some c =>
      let shape_ok :=
        match od_values gsIndex with
        | [] => true
        | v :: vs =>
            let maxIndex := fold_left Nat.max vs v in
            if bStatic then
              match c with
              | [] => false
              | row :: _ => (maxIndex <? length c) && (length row =? length slIndex)
              end
            else (maxIndex <? length c)
                 && forallb (fun el => length el =? length slIndex) c
        end in
      if shape_ok then Ok (mkDataSet gsIndex slIndex c bStatic)
      else Raise AssertionError
  | None =>
      if negb bStatic then
        match gsIndex with
        | [] => Ok (mkDataSet gsIndex slIndex [] bStatic)
        | _ :: _ => Raise AssertionError
        end
      else Raise ValueError
  end.

(** [len(dataset)]. *)
Definition __len__ (self : DataSet) : nat := length (gsIndex self).

(** [dataset.keys()] and [dataset.get_spam_labels()]. *)
Definition keys (self : DataSet) : list GateString := od_keys (gsIndex self).
Definition get_spam_labels (self : DataSet) : list SpamLabel := od_keys (slIndex self).

(** [d[k]] on a dictionary: [KeyError] when [k] is no key. *)
Definition getitem {K V : Type} (eqb : K -> K -> bool) (d : OrderedDict K V) (k : K)
    : result V :=
  match od_get eqb k d with
  | Some v => Ok v
  | None => Raise KeyError
  end.

(** [dataset[gatestring]]: the row data of the [DataSetRow]. *)
Definition __getitem__ (self : DataSet) (gatestring : GateString) : result (list Q) :=
  i <- getitem tuple_eqb (gsIndex self) gatestring ;;
  list_get (counts self) i.

(** [dsRow[spamlabel]] for the row [rowData] of [self]. *)
Definition row_getitem (self : DataSet) (rowData : list Q) (spamlabel : SpamLabel)
    : result Q :=
  j <- getitem String.eqb (slIndex self) spamlabel ;;
  list_get rowData j.

(** [dataset.iteritems()]: the keys of [gsIndex] and the rows of [counts],
    paired by position. *)
Definition iteritems (self : DataSet) : list (GateString * list Q) :=
  combine (od_keys (gsIndex self)) (counts self).

(** [add_count_list(gateString, countList)], [gateString] already a tuple. *)
Definition add_count_list (gateString : GateString) (countList : list Q) : M unit :=
  fun self =>
    if bStatic self then (Raise ValueError, self)
    else if (py_round (Qsum countList) =? 0)%Z then (Ok tt, self)
    else if negb (length countList =? length (slIndex self))
    then (Raise AssertionError, self)
    else
      let countArray := countList in
      match od_get tuple_eqb gateString (gsIndex self) with
      | Some gateStringIndx =>
          match (row <- list_get (counts self) gateStringIndx ;;
                 row' <- np_iadd row countArray ;;
                 list_set (counts self) gateStringIndx row') with
          | Ok counts' =>
              (Ok tt, mkDataSet (gsIndex self) (slIndex self) counts' (bStatic self))
          | Raise e => (Raise e, self)
          end
      | None =>
          let gateStringIndx := length (counts self) in
          (Ok tt, mkDataSet (od_set tuple_eqb gateString gateStringIndx (gsIndex self))
                            (slIndex self)
                            (counts self ++ [countArray])
                            (bStatic self))
      end.

(** The [for (spamLabel,count) in countDict.iteritems()] loop of
    [add_count_dict]; [None] stands for the [nan] a slot starts with. *)
Fixpoint fill_countList (self : DataSet) (items : list (SpamLabel * Q))
    (countList : list (option Q)) : result (list (option Q)) :=
  match items with
  | [] => Ok countList
  | (spamLabel, count) :: items' =>
      if negb (existsb (String.eqb spamLabel) (get_spam_labels self))
      then Raise ValueError
      else
        j <- getitem String.eqb (slIndex self) spamLabel ;;
        countList' <- list_set countList j (Some count) ;;
        fill_countList self items' countList'
  end.

Definition is_nan (c : option Q) : bool :=
  match c with
  | Some _ => false
  | None => true
  end.

Definition count_of (c : option Q) : Q :=
  match c with
  | Some q => q
  | None => 0%Q
  end.

(** [add_count_dict(gateString, countDict)]; [countDict] lists the items of
    the dictionary in its iteration order. *)
Definition add_count_dict (gateString : GateString)
    (countDict : OrderedDict SpamLabel Q) : M unit :=
  fun self =>
    if bStatic self then (Raise ValueError, self)
    else
      match fill_countList self countDict (repeat None (length (slIndex self))) with
      | Raise e => (Raise e, self)
      | Ok countList =>
          if existsb is_nan countList then (Raise ValueError, self)
          else add_count_list gateString (map count_of countList) self
      end.

(** [abs(oldP-newP) > 0.1] on doubles; false when the difference is a
    nan. *)
Definition discrepancy (oldP newP : PrimFloat.float) : bool :=
  (float_0_1 <? PrimFloat.abs (oldP - newP))%float.

(** [add_counts_1q(gateString, nPlus, nMinus)].  The stored fraction is
    a quotient of array elements, where a division by zero gives an
    infinity or a nan and raises nothing; the new one is a quotient of
    Python numbers, which raises on a zero denominator. *)
Definition add_counts_1q (gateString : GateString) (nPlus nMinus : Q) : M unit :=
  fun self =>
    if bStatic self then (Raise ValueError, self)
    else
      let countDict := [("plus"%string, nPlus); ("minus"%string, nMinus)] in
      if od_mem tuple_eqb gateString (gsIndex self) then
        match (current_dsRow <- __getitem__ self gateString ;;
               plus <- row_getitem self current_dsRow "plus"%string ;;
               minus <- row_getitem self current_dsRow "minus"%string ;;
               let oldP := (to_float64 plus / (to_float64 plus + to_float64 minus))%float in
               denominator <- py_float (nPlus + nMinus) ;;
               numerator <- py_float nPlus ;;
               if (denominator =? PrimFloat.zero)%float then Raise ZeroDivisionError
               else
                 let newP := (numerator / denominator)%float in
                 Ok (discrepancy oldP newP)) with
        | Raise e => (Raise e, self)
        | Ok true => (Ok tt, self)
        | Ok false => add_count_dict gateString countDict self
        end
      else add_count_dict gateString countDict self.

(** The [for] loop of [add_counts_from_dataset]. *)
Fixpoint add_rows (rows : list (GateString * list Q)) : M unit :=
  match rows with
  | [] => ret tt
  | (gateLabelString, dsRow) :: rows' =>
      add_count_list gateLabelString dsRow ;;; add_rows rows'
  end.

(** [add_counts_from_dataset(otherDataSet)]. *)
Definition add_counts_from_dataset (otherDataSet : DataSet) : M unit :=
  fun self =>
    if bStatic self then (Raise ValueError, self)
    else if negb (tuple_eqb (get_spam_labels self) (get_spam_labels otherDataSet))
    then (Raise AssertionError, self)
    else add_rows (iteritems otherDataSet) self.

(** The [for gs in listOfGateStringsToKeep] loop of [truncate] on a static
    data set: the lists [gateStrings] and [gateStringIndices] it builds. *)
Fixpoint truncate_static_loop (self : DataSet) (bThrowErrorIfStringIsMissing : bool)
    (toKeep : list GateString) (gateStrings : list GateString)
    (gateStringIndices : list nat) : result (list GateString * list nat) :=
  match toKeep with
  | [] => Ok (gateStrings, gateStringIndices)
  | gateString :: toKeep' =>
      match od_get tuple_eqb gateString (gsIndex self) with
      | None =>
          if bThrowErrorIfStringIsMissing then Raise ValueError
          else truncate_static_loop self bThrowErrorIfStringIsMissing toKeep'
                 gateStrings gateStringIndices
      | Some i =>
          truncate_static_loop self bThrowErrorIfStringIsMissing toKeep'
            (if bThrowErrorIfStringIsMissing then gateStrings
             else gateStrings ++ [gateString])
            (gateStringIndices ++ [i])
      end
  end.

(** The [for gateString in remove_duplicates(...)] loop of [truncate] on a
    mutable data set; the state is [trunc_dataset]. *)
Fixpoint truncate_mutable_loop (self : DataSet) (bThrowErrorIfStringIsMissing : bool)
    (toKeep : list GateString) : M unit :=
  match toKeep with
  | [] => ret tt
  | gateString :: toKeep' =>
      match od_get tuple_eqb gateString (gsIndex self) with
      | Some gateStringIndx =>
          row <~ lift (list_get (counts self) gateStringIndx) ;;
          add_count_list gateString row ;;;
          truncate_mutable_loop self bThrowErrorIfStringIsMissing toKeep'
      | None =>
          if bThrowErrorIfStringIsMissing then raise ValueError
          else truncate_mutable_loop self bThrowErrorIfStringIsMissing toKeep'
      end
  end.

(** [truncate(listOfGateStringsToKeep, bThrowErrorIfStringIsMissing)], the
    gate strings given as tuples: the truncated data set, or the exception. *)
Definition truncate (listOfGateStringsToKeep : list GateString)
    (bThrowErrorIfStringIsMissing : bool) : M DataSet :=
  fun self =>
    if bStatic self then
      (built <- truncate_static_loop self bThrowErrorIfStringIsMissing
                  listOfGateStringsToKeep [] [] ;;
       let gateStrings :=
         if bThrowErrorIfStringIsMissing then listOfGateStringsToKeep
         else fst built in
       let trunc_gsIndex := od_of_list tuple_eqb (combine gateStrings (snd built)) in
       __init__ (Some (counts self)) None (Some trunc_gsIndex) None
                (Some (slIndex self)) true,
       self)
    else
      (trunc_dataset <- __init__ None None None (Some (get_spam_labels self)) None false ;;
       match truncate_mutable_loop self bThrowErrorIfStringIsMissing
               (remove_duplicates tuple_eqb listOfGateStringsToKeep) trunc_dataset with
       | (Ok _, trunc_dataset') => Ok trunc_dataset'
       | (Raise e, _) => Raise e
       end,
       self).

(** The invariant the constructor checks and the methods keep: every index
    of [gsIndex] names a row of [counts], with one count per spam label. *)
Definition rows_indexed (self : DataSet) : Prop :=
  forall gateString i,
    od_get tuple_eqb gateString (gsIndex self) = Some i ->
    exists row, nth_error (counts self) i = Some row
                /\ length row = length (slIndex self).

(** [a + b] on arrays of one length, element by element. *)
Definition np_add (a b : list Q) : list Q :=
  map (fun xy => (fst xy + snd xy)%Q) (combine a b).

(** The data set of the spec's first scenario after its first addition: the
    counts [{"plus":10,"minus":0}] for the gate string [("Gx",)]. *)
Definition Gx_dataset : DataSet :=
  mkDataSet [(["Gx"%string], 0)] [("plus"%string, 0); ("minus"%string, 1)]
            [[10%Q; 0%Q]] false.

(** The same data set once static. *)
Definition Gx_static_dataset : DataSet :=
  mkDataSet (gsIndex Gx_dataset) (slIndex Gx_dataset) (counts Gx_dataset) true.

(** The counts [{"plus":3,"minus":7}] for the gate string [("Gx",)]. *)
Definition Gx_3_7_dataset : DataSet :=
  mkDataSet [(["Gx"%string], 0)] [("plus"%string, 0); ("minus"%string, 1)]
            [[3%Q; 7%Q]] false.

(** [dataset.has_key(gatestring)] and [gatestring in dataset]. *)
Definition has_key (self : DataSet) (gatestring : GateString) : bool :=
  od_mem tuple_eqb gatestring (gsIndex self).

(** [get_gate_labels()]: the labels of the gate strings, each once, in the
    order they are first met. *)
Definition get_gate_labels (self : DataSet) : list GateLabel :=
  fold_left
    (fun gateLabels gateLabelString =>
       fold_left
         (fun gateLabels gateLabel =>
            if negb (existsb (String.eqb gateLabel) gateLabels)
            then gateLabels ++ [gateLabel] else gateLabels)
         gateLabelString gateLabels)
    (keys self) [].

(** [copy()]: a static data set is returned itself; for a mutable one a new
    data set is made from the spam labels, and gets the index and the rows. *)
Definition copy (self : DataSet) : result DataSet :=
  if bStatic self then Ok self
  else
    copyOfMe <- __init__ None None None (Some (get_spam_labels self)) None false ;;
    Ok (mkDataSet (gsIndex self) (slIndex copyOfMe) (counts self) (bStatic copyOfMe)).

(** [done_adding_data()]: the rows are stacked into one array, which
    [numpy.concatenate] refuses when their lengths differ. *)
Definition done_adding_data : M unit :=
  fun self =>
    if bStatic self then (Ok tt, self)
    else
      match counts self with
      | [] => (Ok tt, mkDataSet (gsIndex self) (slIndex self) [] true)
      | row :: rows =>
          if forallb (fun el => length el =? length row) rows
          then (Ok tt, mkDataSet (gsIndex self) (slIndex self) (counts self) true)
          else (Raise ValueError, self)
      end.

(** A data set filled by additions alone: its gate strings are distinct, and
    the one met in place [i] has the index [i] and the row [i]. *)
Definition rows_in_order (self : DataSet) : Prop :=
  NoDup (od_keys (gsIndex self))
  /\ od_values (gsIndex self) = seq 0 (length (counts self)).

(** What the loop of [truncate] keeps true of the mutable data set [t] it
    fills from [self]: every gate string with an index has there the row it
    has in [self]. *)
Definition rows_copied (self t : DataSet) : Prop :=
  forall g i, od_get tuple_eqb g (gsIndex t) = Some i ->
              exists row, nth_error (counts t) i = Some row
                          /\ __getitem__ self g = Ok row.

(** *** Compression of gate-string tuples *)

(** The elements of the tuples [compress_gate_label_tuple] returns: a raw
    gate string is a tuple of labels; a compressed one is the marker label
    ["CCC"] followed by runs [(period, n)]. *)
Inductive item : Type :=
| Label (l : GateLabel)
| Run (period : GateString) (n : nat).

Definition CCC : GateLabel := "CCC"%string.

(** The [while] loop of [_getNumPeriods]: [n] counts the windows of length
    [periodLen] that repeat the first one. *)
Fixpoint getNumPeriods_loop (fuel : nat) (gateString : GateString)
    (periodLen n : nat) : nat :=
  match fuel with
  | 0 => n
  | S fuel' =>
      if tuple_eqb (slice gateString 0 periodLen)
                   (slice gateString (n * periodLen) ((n + 1) * periodLen))
      then getNumPeriods_loop fuel' gateString periodLen (n + 1)
      else n
  end.

(** [_getNumPeriods(gateString, periodLen)].  The callers pass
    [periodLen >= 1]; the loop then stops within [len(gateString) + 1]
    tests (see [getNumPeriods_stops]). *)
Definition _getNumPeriods (gateString : GateString) (periodLen : nat) : nat :=
  if length gateString <? periodLen then 0
  else getNumPeriods_loop (S (length gateString)) gateString periodLen 0.

(** [numpy.argmax]: the index of the first maximum. *)
Fixpoint argmax_from (l : list Q) (i best : nat) (bestv : Q) : nat :=
  match l with
  | [] => best
  | x :: t =>
      if Qltb bestv x then argmax_from t (S i) i x
      else argmax_from t (S i) best bestv
  end.

Definition argmax (l : list Q) : result nat :=
  match l with
  | [] => Raise ValueError
  | x :: t => Ok (argmax_from t 1 0 x)
  end.

(** [compressed[-1][1] == 1]: the repeat count of a run; on the marker label
    it is a character, which never equals [1]. *)
Definition second_is_one (it : item) : result bool :=
  match it with
  | Run _ m => Ok (m =? 1)
  | Label l => if String.length l <? 2 then Raise IndexError else Ok false
  end.

Section Compress.

(** [numpy.sqrt] on a period length, kept abstract. *)
Variable np_sqrt : nat -> Q.

(** The score of a period length that repeats [n] times. *)
Definition period_score (periodLen n : nat) : Q :=
  match n with
  | 0 => 0
  | 1 => (41 # 10) / inject_Z (Z.of_nat periodLen)
  | _ => np_sqrt periodLen * inject_Z (Z.of_nat n)
  end.

(** The arrays [numperiods] and [score] after the [for periodLen] loop over
    [gateString[start:]]: index [0] keeps its initial zero.  Both have
    [maxPeriodToLookFor + 1] entries; for a negative [maxPeriodToLookFor]
    they are empty here, and [argmax] raises the [ValueError] that
    [numpy.zeros] or [numpy.argmax] raises in the source. *)
Definition numperiods (rest : GateString) (maxPeriodToLookFor : Z) : list nat :=
  map (fun periodLen => if periodLen =? 0 then 0 else _getNumPeriods rest periodLen)
      (seq 0 (Z.to_nat (maxPeriodToLookFor + 1))).

Definition score (rest : GateString) (maxPeriodToLookFor : Z) : list Q :=
  map (fun periodLen =>
         if periodLen =? 0 then 0%Q
         else period_score periodLen (_getNumPeriods rest periodLen))
      (seq 0 (Z.to_nat (maxPeriodToLookFor + 1))).

(** One turn of the [while start < L] loop: the new [start] and the new
    [compressed] list. *)
Definition compress_step (gateString : GateString) (maxPeriodToLookFor : Z)
    (start : nat) (compressed : list item) : result (nat * list item) :=
  let rest := skipn start gateString in
  bestPeriodLen <- argmax (score rest maxPeriodToLookFor) ;;
  let n := nth bestPeriodLen (numperiods rest maxPeriodToLookFor) 0 in
  let bestPeriod := slice gateString start (start + bestPeriodLen) in
  if negb ((0 <? n) && (0 <? bestPeriodLen)) then Raise AssertionError
  else
    compressed' <-
      (if (0 <? start) && (n =? 1) then
         one <- second_is_one (last compressed (Label CCC)) ;;
         match last compressed (Label CCC) with
         | Run period _ =>
             if one then Ok (removelast compressed ++ [Run (period ++ bestPeriod) 1])
             else Ok (compressed ++ [Run bestPeriod n])
         | Label _ => Ok (compressed ++ [Run bestPeriod n])
         end
       else Ok (compressed ++ [Run bestPeriod n])) ;;
    Ok (start + bestPeriodLen * n, compressed').

Fixpoint compress_loop (fuel : nat) (gateString : GateString)
    (maxPeriodToLookFor : Z) (start : nat) (compressed : list item)
    : result (list item) :=
  if start <? length gateString then
    match fuel with
    | 0 => Raise FuelExhausted
    | S fuel' =>
        next <- compress_step gateString maxPeriodToLookFor start compressed ;;
        compress_loop fuel' gateString maxPeriodToLookFor (fst next) (snd next)
    end
  else Ok compressed.

(** [compress_gate_label_tuple(gateString, minLenToCompress,
    maxPeriodToLookFor)].  Every turn of the loop moves [start] forward, so
    [len(gateString)] turns are enough. *)
Definition compress_gate_label_tuple (gateString : GateString)
    (minLenToCompress maxPeriodToLookFor : Z) : result (list item) :=
  let L := length gateString in
  if (Z.of_nat L <? minLenToCompress)%Z then Ok (map Label gateString)
  else compress_loop L gateString maxPeriodToLookFor 0 [Label CCC].

End Compress.

(** The [for (period,n) in compressedGateString[1:]] loop of
    [expand_gate_label_tuple].  Unpacking a label (a string) into
    [(period, n)] gives two characters when it has two, and [period*n] is
    then a [TypeError]; any other length cannot be unpacked. *)
Fixpoint expand_runs (runs : list item) (expandedString : GateString)
    : result GateString :=
  match runs with
  | [] => Ok expandedString
  | Run period n :: runs' =>
      expand_runs runs' (expandedString ++ tuple_repeat period n)
  | Label l :: _ =>
      if String.length l =? 2 then Raise TypeError else Raise ValueError
  end.

(** [expand_gate_label_tuple(compressedGateString)]. *)
Definition expand_gate_label_tuple (compressedGateString : list item)
    : result (list item) :=
  match compressedGateString with
  | [] => Ok []
  | Label l :: runs =>
      if String.eqb l CCC then
        expandedString <- expand_runs runs [] ;;
        Ok (map Label expandedString)
      else Ok compressedGateString
  | Run _ _ :: _ => Ok compressedGateString
  end.

(** [expand_gate_label_tuple(compress_gate_label_tuple(s, ...))]. *)
Definition expand_compress (np_sqrt : nat -> Q) (s : GateString)
    (minLenToCompress maxPeriodToLookFor : Z) : result (list item) :=
  compressed <- compress_gate_label_tuple np_sqrt s minLenToCompress maxPeriodToLookFor ;;
  expand_gate_label_tuple compressed.

(** The runs of a compressed tuple in their normal form: every run has a
    period of at least one label and repeats it at least once, and a run
    that does not repeat is not followed by another such run. *)
Definition is_single (it : item) : bool :=
  match it with
  | Run _ 1 => true
  | _ => false
  end.

Fixpoint runs_well_formed (runs : list item) : Prop :=
  match runs with
  | [] => True
  | Run period n :: rest =>
      period <> [] /\ 1 <= n
      /\ (n = 1 -> match rest with
                   | it :: _ => is_single it = false
                   | [] => True
                   end)
      /\ runs_well_formed rest
  | Label _ :: _ => False
  end.

(** A rational square root for running the model: [sqrt(n)] to eight
    decimal places. *)
Definition sqrt8 (n : nat) : Q :=
  Z.sqrt (Z.of_nat n * 10 ^ 16) # 100000000.

End dataset.

(** ** [algorithms/fiducialpairreduction.py] *)

Module fiducialpairreduction.

(** A two-dimensional array, as the list of its rows. *)
Definition Matrix : Type := list (list Q).

(** [_nCr(n,r)], for [r <= n] as the search calls it. *)
Definition _nCr (n r : nat) : nat := fact n / fact r / fact (n - r).

(** [itertools.combinations(pool, r)]: the subsequences of length [r], in
    lexicographic order of their positions. *)
Fixpoint combinations {A : Type} (pool : list A) (r : nat) : list (list A) :=
  match r, pool with
  | 0, _ => [[]]
  | S _, [] => []
  | S r', x :: pool' => map (cons x) (combinations pool' r') ++ combinations pool' r
  end.

(** [numpy.take(M, indices, axis=0)].  The search only asks for rows within
    the shape [get_derivs] gives its arrays. *)
Definition np_take (M : Matrix) (indices : list nat) : Matrix :=
  map (fun i => nth i M []) indices.

(** [sorted(s, reverse=True)]. *)
Definition sorted_reverse (s : list Q) : list Q :=
  sorted (fun y x => Qle_bool x y) s.

(** [(v1/v0)/L_ratio > tol] for [L_ratio = float(L1)/float(L0)] and array
    elements [v0 <> 0] and [v1].  When [L1] is zero, [L_ratio] is a zero of
    the sign of [L0], and the quotient by it is an infinity of the sign of
    [(v1/v0)*L0], or a nan when [v1] is zero: it exceeds [tol] when that
    sign is positive. *)
Definition ratio_exceeds (v0 v1 : Q) (L0 L1 : Z) (tol : Q) : bool :=
  if (L1 =? 0)%Z then Qltb 0 ((v1 / v0) * inject_Z L0)
  else Qgtb ((v1 / v0) / (inject_Z L1 / inject_Z L0)) tol.

(** The test of the [for i,(v0,v1)] loop: is this pair counted? *)
Definition is_amplified (L0 L1 : Z) (tol : Q) (v : Q * Q) : bool :=
  Qgtb (Qabs (fst v)) (1 # 10) && ratio_exceeds (fst v) (snd v) L0 L1 tol.

(** [filterAll(it)]: the items of [it] at the positions [randIndices], read
    from position [i] on with [nxt] indices already met.  Only the first
    look-up [randIndices[nxt]] can fail (see [filterAll_ok]), so the
    generator raises before it yields or never. *)
Fixpoint filterAll {A : Type} (randIndices : list nat) (it : list A) (i nxt : nat)
    : result (list A) :=
  match it with
  | [] => Ok []
  | val :: it' =>
      r <- list_get randIndices nxt ;;
      if i =? r then
        if nxt + 1 =? length randIndices then Ok [val]
        else rest <- filterAll randIndices it' (i + 1) (nxt + 1) ;; Ok (val :: rest)
      else filterAll randIndices it' (i + 1) nxt
  end.

Section Search.

(** [numpy.linalg.svd(M, compute_uv=False)]: the singular values, or [None]
    when it raises (no convergence). *)
Variable svd : Matrix -> option (list Q).

(** [get_derivs(L)], reshaped as [fullTestMx0] and [fullTestMx1] are: the
    derivatives come from the gate set simulator. *)
Variable get_derivs : Z -> Matrix.

(** [rand.randint(0, high, size=size)] of the [RandomState] made in the turn
    [nNeededPairs] of the search. *)
Variable randint : nat -> nat -> Z -> list nat.

Variables nRhoStrs nEStrs nGerms nSpamLabels : nat.
Variables L0 L1 : Z.
Variable tol : Q.

(** [get_number_amplified(M0,M1,L0,L1,verb)]; the printing is left out. *)
Definition get_number_amplified (M0 M1 : Matrix) (L0 L1 : Z) : result nat :=
  if (L0 =? 0)%Z then Raise ZeroDivisionError
  else
    match svd M0, svd M1 with
    | Some s0, Some s1 =>
        Ok (fold_left
              (fun numAmplified v =>
                 if is_amplified L0 L1 tol v then numAmplified + 1 else numAmplified)
              (combine (sorted_reverse s0) (sorted_reverse s1)) 0)
    | _, _ => Ok 0
    end.

Definition nPossiblePairs : nat := nRhoStrs * nEStrs.
Definition allPairIndices : list nat := seq 0 nPossiblePairs.
Definition germFctr : nat := nSpamLabels * nRhoStrs * nEStrs.
Definition spamLabelFctr : nat := nRhoStrs * nEStrs.

(** [gateStringIndicesForPair[i]]. *)
Definition gateStringIndicesForPair (i : nat) : list nat :=
  flat_map (fun iGerm =>
              map (fun iSpamLabel => iGerm * germFctr + iSpamLabel * spamLabelFctr + i)
                  (seq 0 nSpamLabels))
           (seq 0 nGerms).

(** The amplified count of a list of pair indices: the rows of the pairs
    are taken from both full matrices and tested. *)
Definition nAmplified_of (pairIndicesToTest : list nat) : result nat :=
  let gateStringIndicesForPairs := flat_map gateStringIndicesForPair pairIndicesToTest in
  let testMx0 := np_take (get_derivs L0) gateStringIndicesForPairs in
  let testMx1 := np_take (get_derivs L1) gateStringIndicesForPairs in
  get_number_amplified testMx0 testMx1 L0 L1.

(** [pairIndicesToIterateOver] in the turn [nNeededPairs]: every
    combination, a sample of them, or an unbound name for another mode. *)
Definition pairIndicesToIterateOver (searchMode : string) (nRandom : Z)
    (nNeededPairs : nat) : result (list (list nat)) :=
  if String.eqb searchMode "sequential" then
    Ok (combinations allPairIndices nNeededPairs)
  else if String.eqb searchMode "random" then
    let nTotalPairCombos := _nCr (length allPairIndices) nNeededPairs in
    randIndices <-
      (if (nRandom <? Z.of_nat nTotalPairCombos)%Z then
         if (nRandom <? 0)%Z then Raise ValueError
         else Ok (remove_duplicates Nat.eqb
                    (sorted Nat.leb (randint nNeededPairs nTotalPairCombos nRandom)))
       else Ok (seq 0 nTotalPairCombos)) ;;
    filterAll randIndices (combinations allPairIndices nNeededPairs) 0 0
  else Raise NameError.

(** [ret]: the pairs [(iRhoStr,iEStr)] of a list of pair indices. *)
Definition pairs_of (pairIndicesToTest : list nat) : list (nat * nat) :=
  map (fun i => let iRhoStr := i / nEStrs in (iRhoStr, i - iRhoStr * nEStrs))
      pairIndicesToTest.

Definition listOfAllPairs : list (nat * nat) :=
  flat_map (fun iRhoStr => map (fun iEStr => (iRhoStr, iEStr)) (seq 0 nEStrs))
           (seq 0 nRhoStrs).

(** The [for pairIndicesToTest] loop: the pairs it returns, or [None] when
    it ends. *)
Fixpoint test_candidates (maxAmplified : nat) (candidates : list (list nat))
    : result (option (list (nat * nat))) :=
  match candidates with
  | [] => Ok None
  | pairIndicesToTest :: candidates' =>
      nAmplified <- nAmplified_of pairIndicesToTest ;;
      if nAmplified =? maxAmplified then Ok (Some (pairs_of pairIndicesToTest))
      else test_candidates maxAmplified candidates'
  end.

(** The [for nNeededPairs] loop and the fallback after it. *)
Fixpoint search_sizes (searchMode : string) (nRandom : Z) (maxAmplified : nat)
    (sizes : list nat) : result (list (nat * nat)) :=
  match sizes with
  | [] => Ok listOfAllPairs
  | nNeededPairs :: sizes' =>
      candidates <- pairIndicesToIterateOver searchMode nRandom nNeededPairs ;;
      found <- test_candidates maxAmplified candidates ;;
      match found with
      | Some ret => Ok ret
      | None => search_sizes searchMode nRandom maxAmplified sizes'
      end
  end.

(** [find_sufficient_fiducial_pairs]: [None] is the [return None] of the
    mode that tests one pair list. *)
Definition find_sufficient_fiducial_pairs (searchMode : string) (nRandom : Z)
    (testPairList : option (list (nat * nat))) : result (option (list (nat * nat))) :=
  match testPairList with
  | Some pairList =>
      let fix gather (l : list (nat * nat)) : result (list nat) :=
        match l with
        | [] => Ok []
        | (iRhoStr, iEStr) :: l' =>
            if iRhoStr * nEStrs + iEStr <? nPossiblePairs then
              rest <- gather l' ;;
              Ok (gateStringIndicesForPair (iRhoStr * nEStrs + iEStr) ++ rest)
            else Raise IndexError
        end in
      gateStringIndicesForPairs <- gather pairList ;;
      nAmplified <- get_number_amplified
                      (np_take (get_derivs L0) gateStringIndicesForPairs)
                      (np_take (get_derivs L1) gateStringIndicesForPairs) L0 L1 ;;
      Ok None
  | None =>
      maxAmplified <- get_number_amplified (get_derivs L0) (get_derivs L1) L0 L1 ;;
      ret <- search_sizes searchMode nRandom maxAmplified (seq 1 (nPossiblePairs - 1)) ;;
      Ok (Some ret)
  end.

(** The amplified count of a list of pair indices and of the full set of
    pairs, as numbers: what the tester returns when it returns. *)
Definition amplified_count (pairIndicesToTest : list nat) : nat :=
  match nAmplified_of pairIndicesToTest with
  | Ok n => n
  | Raise _ => 0
  end.

Definition maxAmplified_full : nat :=
  match get_number_amplified (get_derivs L0) (get_derivs L1) L0 L1 with
  | Ok n => n
  | Raise _ => 0
  end.

(** The candidates of the turn [nNeededPairs], in the order the search
    meets them. *)
Definition candidates_of (searchMode : string) (nRandom : Z) (nNeededPairs : nat)
    : list (list nat) :=
  match pairIndicesToIterateOver searchMode nRandom nNeededPairs with
  | Ok l => l
  | Raise _ => []
  end.

(** Every candidate of the search, sizes [1, ..., nPossiblePairs - 1] in
    increasing order and each size in its enumeration order. *)
Definition all_candidates (searchMode : string) (nRandom : Z) : list (list nat) :=
  flat_map (candidates_of searchMode nRandom) (seq 1 (nPossiblePairs - 1)).

End Search.

(** A candidate of [k] pairs in the words of the specification: a subset
    of [k] of the pair indices [0, ..., nPossiblePairs - 1], listed in
    increasing order. *)
Definition subset_of_size (nPossiblePairs k : nat) (c : list nat) : Prop :=
  length c = k /\ StronglySorted lt c /\ Forall (fun i => i < nPossiblePairs) c.

(** The count in the words of the specification.  [t] is [s] sorted in
    descending order when it has the values of [s], each as often, and
    none of them stands before a larger one; and the count of two lists so
    sorted is the number of rank positions [i] they both have at which
    [|v0| > 0.1] and [(v1/v0)/(L1/L0) > tol]. *)
Definition descending_sort_of (s t : list Q) : Prop :=
  Permutation s t /\ Sorted (fun a b => (b <= a)%Q) t.

Definition amplified_rank_positions (t0 t1 : list Q) (L0 L1 : Z) (tol : Q) : nat :=
  let v0 := fun i => nth i t0 0%Q in
  let v1 := fun i => nth i t1 0%Q in
  length
    (filter (fun i => Qgtb (Qabs (v0 i)) (1 # 10)
                      && Qgtb ((v1 i / v0 i) / (inject_Z L1 / inject_Z L0)) tol)
            (seq 0 (Nat.min (length t0) (length t1)))).

(** The singular values of a matrix whose rows are orthogonal to each
    other are the norms of its rows.  This stand-in for [numpy.linalg.svd]
    is for the matrices whose rows have one entry other than zero each, in
    columns of their own, as a diagonal matrix and any selection of its
    rows: it lists the absolute values of these entries row by row, so the
    order is left to the tester. *)
Definition orthogonal_rows_svd (M : Matrix) : option (list Q) :=
  Some (map (fun row => Qsum (map Qabs row)) M).

(** An instance with such matrices: four pairs and four parameters, the
    row of a pair has its one entry in its own column, and the entries of
    the pairs [0] and [2] grow with [L]. *)
Definition example_diagonal_derivs (L : Z) : Matrix :=
  [[inject_Z L; 0%Q; 0%Q; 0%Q]; [0%Q; 1%Q; 0%Q; 0%Q];
   [0%Q; 0%Q; inject_Z L; 0%Q]; [0%Q; 0%Q; 0%Q; 1%Q]].

(** An instance to run the search on: two preparation and two measurement
    strings, one germ and one spam label, so four pairs and four rows; the
    rows of the pairs [0] and [2] grow with [L], the other two do not.  The
    stand-in for [numpy.linalg.svd] reads one singular value off each row
    (the matrices of the instance have one column), and the stand-in for
    [randint] steps through the range. *)
Definition example_svd (M : Matrix) : option (list Q) :=
  Some (map (fun row => Qabs (hd 0%Q row)) M).

Definition example_derivs (L : Z) : Matrix :=
  [[inject_Z L]; [1%Q]; [inject_Z L]; [1%Q]].

Definition example_randint (nNeededPairs high : nat) (size : Z) : list nat :=
  map (fun i => (7 * i + 3 + nNeededPairs) mod high) (seq 0 (Z.to_nat size)).

End fiducialpairreduction.

(** ** [tools/memoize.py] *)

Module memoize.

Section Memoize.

(** The arguments and the values of the decorated function, and whatever
    it reads and changes outside. *)
Variables Args Val World : Type.
Variable args_eqb : Args -> Args -> bool.

(** The decorated function [obj]: called on [args] it returns or raises,
    and leaves the world in a new state. *)
Variable obj : Args -> World -> result Val * World.

(** [obj.cache], a dictionary from argument tuples to values. *)
Definition Cache : Type := OrderedDict Args Val.

(** The function [memoizer] the decorator returns, called with the
    positional arguments [args] and the keyword arguments named [kwargs];
    the state is the cache and the world. *)
Definition memoizer (args : Args) (kwargs : list string) (cache : Cache) (w : World)
    : result Val * (Cache * World) :=
  if 0 <? length kwargs then (Raise ValueError, (cache, w))
  else
    let get (c : Cache) : result Val :=
      match od_get args_eqb args c with
      | Some v => Ok v
      | None => Raise KeyError
      end in
    if negb (od_mem args_eqb args cache) then
      match obj args w with
      | (Ok v, w') =>
          let cache' := od_set args_eqb args v cache in
          (get cache', (cache', w'))
      | (Raise e, w') => (Raise e, (cache, w'))
      end
    else (get cache, (cache, w)).

(** A sequence of calls without keyword arguments, the results dropped:
    the cache and the world they leave. *)
Fixpoint calls (argss : list Args) (cache : Cache) (w : World) : Cache * World :=
  match argss with
  | [] => (cache, w)
  | args :: argss' =>
      let state := snd (memoizer args [] cache w) in
      calls argss' (fst state) (snd state)
  end.

End Memoize.

End memoize.

(** * Part II: properties *)

(** ** General facts on lists and on the runtime *)

Section ListFacts.

Context {A : Type}.

Lemma firstn_plus (l : list A) (a b : nat) :
  firstn (a + b) l = firstn a l ++ firstn b (skipn a l).
Proof.
  revert l; induction a as [|a IH]; intros l; simpl.
  - reflexivity.
  - destruct l as [|x l]; simpl.
    + now rewrite firstn_nil.
    + now rewrite IH.
Qed.

Lemma tuple_repeat_snoc (t : list A) (n : nat) :
  tuple_repeat t n ++ t = t ++ tuple_repeat t n.
Proof.
  induction n as [|n IH]; simpl.
  - now rewrite app_nil_r.
  - now rewrite <- app_assoc, IH.
Qed.

Lemma last_or_nil (l : list A) : l = [] \/ exists l' x, l = l' ++ [x].
Proof.
  destruct l as [|a l]; [now left|right].
  destruct (exists_last (l := a :: l)) as (l' & x & E); [discriminate|].
  now exists l', x.
Qed.

End ListFacts.

Lemma nth_map_seq {B : Type} (f : nat -> B) (d : B) (k j : nat) :
  j < k -> nth j (map f (seq 0 k)) d = f j.
Proof.
  intros Hj.
  rewrite (nth_indep _ d (f 0)) by now rewrite length_map, length_seq.
  now rewrite map_nth, seq_nth.
Qed.

Lemma Qltb_lt (x y : Q) : Qltb x y = true <-> (x < y)%Q.
Proof.
  unfold Qltb. rewrite negb_true_iff. split; intros H.
  - apply Qnot_le_lt. intros C. apply Qle_bool_iff in C. congruence.
  - destruct (Qle_bool y x) eqn:E; [|reflexivity].
    apply Qle_bool_iff in E. exfalso. now apply (Qlt_not_le x y).
Qed.

Lemma Qltb_ge (x y : Q) : Qltb x y = false <-> (y <= x)%Q.
Proof.
  unfold Qltb. rewrite negb_false_iff. apply Qle_bool_iff.
Qed.

(** ** Compression of gate-string tuples *)

Section CompressionFacts.

Import dataset.

Lemma tuple_eqb_eq (a b : GateString) : tuple_eqb a b = true <-> a = b.
Proof.
  revert b; induction a as [|x a IH]; intros [|y b]; simpl; split; intros H;
    try reflexivity; try discriminate.
  - apply andb_true_iff in H as [H1 H2].
    apply String.eqb_eq in H1. apply IH in H2. now subst.
  - injection H as -> ->. rewrite String.eqb_refl. now apply IH.
Qed.

Lemma tuple_eqb_refl (a : GateString) : tuple_eqb a a = true.
Proof. now apply tuple_eqb_eq. Qed.

(** Every window the loop of [_getNumPeriods] counted repeats the first. *)
Lemma getNumPeriods_loop_sound (fuel : nat) (gs : GateString) (p n0 : nat) :
  (forall j, j < n0 -> slice gs (j * p) ((j + 1) * p) = slice gs 0 p) ->
  forall j, j < getNumPeriods_loop fuel gs p n0 ->
            slice gs (j * p) ((j + 1) * p) = slice gs 0 p.
Proof.
  revert n0; induction fuel as [|fuel IH]; intros n0 Hn0 j Hj; simpl in Hj.
  - now apply Hn0.
  - destruct (tuple_eqb _ _) eqn:E.
    + apply (IH (n0 + 1)); [|exact Hj].
      intros k Hk. destruct (Nat.eq_dec k n0) as [->|Hne].
      * symmetry. now apply tuple_eqb_eq.
      * apply Hn0. lia.
    + now apply Hn0.
Qed.

Lemma getNumPeriods_loop_ge (fuel : nat) (gs : GateString) (p n0 : nat) :
  n0 <= getNumPeriods_loop fuel gs p n0.
Proof.
  revert n0; induction fuel as [|fuel IH]; intros n0; simpl; [lia|].
  destruct (tuple_eqb _ _); [|lia].
  specialize (IH (n0 + 1)). lia.
Qed.

Lemma getNumPeriods_sound (gs : GateString) (p j : nat) :
  j < _getNumPeriods gs p -> slice gs (j * p) ((j + 1) * p) = slice gs 0 p.
Proof.
  unfold _getNumPeriods. destruct (length gs <? p); [lia|].
  apply getNumPeriods_loop_sound. lia.
Qed.

(** The counted windows spell the first window, repeated. *)
Lemma getNumPeriods_repeat (gs : GateString) (p : nat) :
  firstn (p * _getNumPeriods gs p) gs
  = tuple_repeat (firstn p gs) (_getNumPeriods gs p).
Proof.
  assert (H : forall n, n <= _getNumPeriods gs p ->
                        firstn (p * n) gs = tuple_repeat (firstn p gs) n).
  { induction n as [|n IH]; intros Hn.
    - now rewrite Nat.mul_0_r.
    - replace (p * S n) with (p * n + p) by lia.
      rewrite firstn_plus, IH by lia.
      pose proof (getNumPeriods_sound gs p n ltac:(lia)) as E.
      unfold slice in E.
      replace ((n + 1) * p - n * p) with p in E by lia.
      rewrite Nat.sub_0_r in E. simpl skipn in E.
      replace (p * n) with (n * p) by lia.
      rewrite E. simpl. apply tuple_repeat_snoc. }
  now apply H.
Qed.

(** A window of length one always repeats at least once. *)
Lemma getNumPeriods_1_pos (x : GateLabel) (gs : GateString) :
  1 <= _getNumPeriods (x :: gs) 1.
Proof.
  unfold _getNumPeriods.
  destruct (Nat.ltb_spec (length (x :: gs)) 1) as [H|_]; [simpl in H; lia|].
  change (getNumPeriods_loop (S (length (x :: gs))) (x :: gs) 1 0)
    with (if tuple_eqb (slice (x :: gs) 0 1) (slice (x :: gs) (0 * 1) ((0 + 1) * 1))
          then getNumPeriods_loop (length (x :: gs)) (x :: gs) 1 (0 + 1) else 0).
  change (slice (x :: gs) (0 * 1) ((0 + 1) * 1)) with (slice (x :: gs) 0 1).
  rewrite tuple_eqb_refl.
  apply (getNumPeriods_loop_ge _ _ 1 (0 + 1)).
Qed.

(** With a period of at least one label, the loop of [_getNumPeriods] stops
    on a window that differs from the first: its fuel is not exhausted. *)
Lemma getNumPeriods_loop_stops (fuel : nat) (gs : GateString) (p n0 : nat) :
  1 <= p <= length gs -> length gs < (n0 + fuel) * p ->
  let n := getNumPeriods_loop fuel gs p n0 in
  slice gs 0 p <> slice gs (n * p) ((n + 1) * p).
Proof.
  intros Hp. revert n0; induction fuel as [|fuel IH]; intros n0 Hf; simpl.
  - rewrite Nat.add_0_r in Hf. unfold slice. intros E.
    apply (f_equal (@length _)) in E.
    rewrite !length_firstn, !length_skipn in E. lia.
  - destruct (tuple_eqb _ _) eqn:E.
    + apply IH. lia.
    + intros C. apply tuple_eqb_eq in C. congruence.
Qed.

Lemma getNumPeriods_stops (gs : GateString) (p : nat) :
  1 <= p <= length gs ->
  slice gs 0 p
  <> slice gs (_getNumPeriods gs p * p) ((_getNumPeriods gs p + 1) * p).
Proof.
  intros Hp. unfold _getNumPeriods.
  destruct (Nat.ltb_spec (length gs) p); [lia|].
  apply getNumPeriods_loop_stops; [exact Hp|]. nia.
Qed.

End CompressionFacts.

Section ArgmaxFacts.

Import dataset.

(** [argmax_from] keeps the index of the largest value met so far. *)
Lemma argmax_from_spec (pre t : list Q) (best : nat) (bestv : Q) :
  best < length pre ->
  nth best (pre ++ t) 0%Q = bestv ->
  (forall j, j < length pre -> (nth j (pre ++ t) 0 <= bestv)%Q) ->
  let b := argmax_from t (length pre) best bestv in
  b < length (pre ++ t)
  /\ forall j, j < length (pre ++ t) -> (nth j (pre ++ t) 0 <= nth b (pre ++ t) 0)%Q.
Proof.
  revert pre best bestv; induction t as [|x t IH]; intros pre best bestv Hb Hv Hmax; simpl.
  - rewrite app_nil_r in *. split; [exact Hb|].
    intros j Hj. rewrite Hv. now apply Hmax.
  - assert (E : pre ++ x :: t = (pre ++ [x]) ++ t) by now rewrite <- app_assoc.
    assert (Hx : nth (length pre) (pre ++ x :: t) 0%Q = x)
      by now rewrite app_nth2, Nat.sub_diag by lia.
    destruct (Qltb bestv x) eqn:C.
    + apply Qltb_lt in C.
      specialize (IH (pre ++ [x]) (length pre) x).
      rewrite length_app in IH. simpl length in IH.
      replace (length pre + 1) with (S (length pre)) in IH by lia.
      rewrite E. apply IH.
      * lia.
      * now rewrite <- E.
      * intros j Hj. rewrite <- E.
        destruct (Nat.eq_dec j (length pre)) as [->|Hne].
        -- rewrite Hx. apply Qle_refl.
        -- apply Qle_trans with bestv; [apply Hmax; lia|now apply Qlt_le_weak].
    + apply Qltb_ge in C.
      specialize (IH (pre ++ [x]) best bestv).
      rewrite length_app in IH. simpl length in IH.
      replace (length pre + 1) with (S (length pre)) in IH by lia.
      rewrite E. apply IH.
      * lia.
      * now rewrite <- E.
      * intros j Hj. rewrite <- E.
        destruct (Nat.eq_dec j (length pre)) as [->|Hne].
        -- now rewrite Hx.
        -- apply Hmax. lia.
Qed.

Lemma argmax_spec (l : list Q) :
  l <> [] ->
  exists b, argmax l = Ok b /\ b < length l
            /\ forall j, j < length l -> (nth j l 0 <= nth b l 0)%Q.
Proof.
  destruct l as [|x t]; [congruence|intros _].
  exists (argmax_from t 1 0 x). split; [reflexivity|].
  apply (argmax_from_spec [x] t 0 x); simpl.
  - lia.
  - reflexivity.
  - intros j Hj. replace j with 0 by lia. apply Qle_refl.
Qed.

End ArgmaxFacts.

Section RoundTrip.

Import dataset.

Variable np_sqrt : nat -> Q.
Hypothesis np_sqrt_1_pos : (0 < np_sqrt 1)%Q.

Lemma period_score_1_pos (n : nat) :
  1 <= n -> (0 < period_score np_sqrt 1 n)%Q.
Proof.
  intros Hn. destruct n as [|[|n]]; [lia|reflexivity|].
  unfold period_score. apply Qmult_lt_0_compat; [exact np_sqrt_1_pos|].
  unfold Qlt; simpl. lia.
Qed.

Lemma score_length (rest : GateString) (mp : Z) :
  length (score np_sqrt rest mp) = Z.to_nat (mp + 1).
Proof. unfold score. now rewrite length_map, length_seq. Qed.

Lemma score_nth (rest : GateString) (mp : Z) (j : nat) :
  j < Z.to_nat (mp + 1) ->
  nth j (score np_sqrt rest mp) 0%Q
  = if j =? 0 then 0%Q else period_score np_sqrt j (_getNumPeriods rest j).
Proof.
  intros Hj. unfold score. now rewrite nth_map_seq.
Qed.

Lemma numperiods_nth (rest : GateString) (mp : Z) (j : nat) :
  j < Z.to_nat (mp + 1) ->
  nth j (numperiods rest mp) 0
  = if j =? 0 then 0 else _getNumPeriods rest j.
Proof.
  intros Hj. unfold numperiods. now rewrite nth_map_seq.
Qed.

(** The period [argmax] picks is at least one label long and repeats at
    least once: the assertion of the loop holds. *)
Lemma best_period_positive (rest : GateString) (mp : Z) :
  rest <> [] -> (1 <= mp)%Z ->
  exists b, argmax (score np_sqrt rest mp) = Ok b
            /\ 1 <= b
            /\ 1 <= nth b (numperiods rest mp) 0
            /\ nth b (numperiods rest mp) 0 = _getNumPeriods rest b.
Proof.
  intros Hrest Hmp.
  destruct (argmax_spec (score np_sqrt rest mp)) as (b & Eb & Hb & Hmax).
  { intros E. apply (f_equal (@length _)) in E.
    rewrite score_length in E. simpl in E. lia. }
  rewrite score_length in Hb, Hmax.
  exists b. split; [exact Eb|].
  assert (H1 : (0 < nth 1 (score np_sqrt rest mp) 0)%Q).
  { rewrite score_nth by lia. simpl Nat.eqb. cbv iota.
    destruct rest as [|x rest']; [congruence|].
    apply period_score_1_pos, getNumPeriods_1_pos. }
  assert (Hpos : (0 < nth b (score np_sqrt rest mp) 0)%Q).
  { eapply Qlt_le_trans; [exact H1|]. apply Hmax. lia. }
  rewrite score_nth in Hpos by exact Hb.
  rewrite numperiods_nth by exact Hb.
  destruct (Nat.eqb_spec b 0) as [->|Hb0].
  - exfalso. now apply (Qlt_irrefl 0).
  - split; [lia|]. split; [|reflexivity].
    destruct (_getNumPeriods rest b) eqn:En; [|lia].
    exfalso. now apply (Qlt_irrefl 0).
Qed.

Lemma expand_runs_app (r1 r2 : list item) (acc : GateString) :
  expand_runs (r1 ++ r2) acc
  = (acc' <- expand_runs r1 acc ;; expand_runs r2 acc').
Proof.
  revert acc; induction r1 as [|[l|period n] r1 IH]; intros acc; simpl.
  - reflexivity.
  - now destruct (String.length l =? 2).
  - apply IH.
Qed.

(** What the chosen period contributes is the next stretch of the string. *)
Lemma best_period_stretch (gs : GateString) (start b : nat) :
  firstn (start + b * _getNumPeriods (skipn start gs) b) gs
  = firstn start gs
    ++ tuple_repeat (slice gs start (start + b)) (_getNumPeriods (skipn start gs) b).
Proof.
  rewrite firstn_plus, getNumPeriods_repeat. unfold slice.
  now replace (start + b - start) with b by lia.
Qed.

(** One turn of the loop of [compress_gate_label_tuple] keeps the marker in
    front, moves [start] forward, and the runs still expand to the first
    [start] labels. *)
Lemma compress_step_ok (gs : GateString) (mp : Z) (start : nat) (runs : list item) :
  start < length gs -> (1 <= mp)%Z ->
  expand_runs runs [] = Ok (firstn start gs) ->
  exists start' runs',
    compress_step np_sqrt gs mp start (Label CCC :: runs)
    = Ok (start', Label CCC :: runs')
    /\ start < start'
    /\ expand_runs runs' [] = Ok (firstn start' gs).
Proof.
  intros Hstart Hmp Hinv. unfold compress_step.
  assert (Hrest : skipn start gs <> []).
  { intros E. apply (f_equal (@length _)) in E.
    rewrite length_skipn in E. simpl in E. lia. }
  destruct (best_period_positive (skipn start gs) mp Hrest Hmp)
    as (b & -> & Hb & Hn & En).
  cbn [bind]. set (n := nth b (numperiods (skipn start gs) mp) 0) in *.
  destruct (Nat.ltb_spec 0 n) as [_|]; [|lia].
  destruct (Nat.ltb_spec 0 b) as [_|]; [|lia].
  cbn [andb negb].
  assert (Happend :
    expand_runs (runs ++ [Run (slice gs start (start + b)) n]) []
    = Ok (firstn (start + b * n) gs)).
  { rewrite expand_runs_app, Hinv. cbn [bind expand_runs].
    now rewrite En, best_period_stretch. }
  assert (Hadv : start < start + b * n) by nia.
  destruct ((0 <? start) && (n =? 1)) eqn:Hmerge.
  - apply andb_true_iff in Hmerge as [_ Hn1]. apply Nat.eqb_eq in Hn1.
    destruct (last_or_nil runs) as [->|(runs0 & [l|period m] & ->)].
    + cbn. exists (start + b * n), [Run (slice gs start (start + b)) n].
      split; [reflexivity|]. split; [exact Hadv|exact Happend].
    + rewrite app_comm_cons, last_last. cbn [second_is_one].
      destruct (String.length l <? 2); cbn [bind].
      * rewrite expand_runs_app in Hinv.
        destruct (expand_runs runs0 []); cbn in Hinv;
          [destruct (String.length l =? 2)|]; discriminate.
      * exists (start + b * n), ((runs0 ++ [Label l]) ++ [Run (slice gs start (start + b)) n]).
        split; [reflexivity|]. split; [exact Hadv|exact Happend].
    + rewrite app_comm_cons, last_last. cbn [second_is_one bind].
      destruct (Nat.eqb_spec m 1) as [->|Hm].
      * rewrite removelast_last. cbn [bind fst snd].
        exists (start + b * n), (runs0 ++ [Run (period ++ slice gs start (start + b)) 1]).
        split; [reflexivity|]. split; [exact Hadv|].
        rewrite <- Happend, !expand_runs_app.
        destruct (expand_runs runs0 []) as [acc|e]; cbn [bind expand_runs]; [|reflexivity].
        rewrite Hn1. cbn [tuple_repeat].
        now rewrite !app_nil_r, app_assoc.
      * cbn [bind fst snd].
        exists (start + b * n),
               ((runs0 ++ [Run period m]) ++ [Run (slice gs start (start + b)) n]).
        split; [reflexivity|]. split; [exact Hadv|exact Happend].
  - cbn [bind fst snd].
    exists (start + b * n), (runs ++ [Run (slice gs start (start + b)) n]).
    split; [reflexivity|]. split; [exact Hadv|exact Happend].
Qed.

(** With [len(gateString) - start] turns of fuel the loop ends, and its
    result expands to the whole string. *)
Lemma compress_loop_ok (gs : GateString) (mp : Z) :
  (1 <= mp)%Z ->
  forall (fuel start : nat) (runs : list item),
    length gs - start <= fuel ->
    expand_runs runs [] = Ok (firstn start gs) ->
    exists runs',
      compress_loop np_sqrt fuel gs mp start (Label CCC :: runs)
      = Ok (Label CCC :: runs')
      /\ expand_runs runs' [] = Ok gs.
Proof.
  intros Hmp. induction fuel as [|fuel IH]; intros start runs Hfuel Hinv.
  - simpl. destruct (Nat.ltb_spec start (length gs)); [lia|].
    exists runs. split; [reflexivity|].
    now rewrite Hinv, firstn_all2 by lia.
  - cbn [compress_loop]. destruct (Nat.ltb_spec start (length gs)) as [Hlt|Hge].
    + destruct (compress_step_ok gs mp start runs Hlt Hmp Hinv)
        as (start' & runs1 & -> & Hadv & Hinv').
      cbn [bind fst snd]. apply IH; [lia|exact Hinv'].
    + exists runs. split; [reflexivity|].
      now rewrite Hinv, firstn_all2 by lia.
Qed.

(** C4 (as amended): for every gate string and every [minLenToCompress],
    and for every [maxPeriodToLookFor] of at least one, expanding the
    compressed tuple gives back the tuple of the gate string, provided a
    string that is left uncompressed (shorter than [minLenToCompress]) does
    not start with the marker label ["CCC"]. *)
Theorem expand_compress_round_trip (s : GateString) (minLenToCompress maxPeriodToLookFor : Z) :
  (1 <= maxPeriodToLookFor)%Z ->
  ((Z.of_nat (length s) < minLenToCompress)%Z -> hd_error s <> Some CCC) ->
  expand_compress np_sqrt s minLenToCompress maxPeriodToLookFor = Ok (map Label s).
Proof.
  intros Hmp Hraw. unfold expand_compress, compress_gate_label_tuple.
  destruct (Z.ltb_spec (Z.of_nat (length s)) minLenToCompress) as [Hshort|Hlong].
  - cbn [bind]. destruct s as [|x s]; [reflexivity|].
    cbn [map expand_gate_label_tuple].
    destruct (String.eqb_spec x CCC) as [->|_]; [|reflexivity].
    exfalso. now apply (Hraw Hshort).
  - destruct (compress_loop_ok s maxPeriodToLookFor Hmp (length s) 0 [])
      as (runs & -> & Hruns); [lia|reflexivity|].
    cbn [bind expand_gate_label_tuple]. rewrite String.eqb_refl.
    now rewrite Hruns.
Qed.

End RoundTrip.

(** The round trip on the string [("a","b","a","b","a","b")], compressed
    whatever its length. *)
Lemma expand_compress_round_trip_witness :
  dataset.expand_compress dataset.sqrt8 ["a"; "b"; "a"; "b"; "a"; "b"]%string 1 20
  = Ok (map dataset.Label ["a"; "b"; "a"; "b"; "a"; "b"]%string).
Proof.
  apply expand_compress_round_trip.
  - reflexivity.
  - lia.
  - intros H. simpl in H. lia.
Defined.

(** C4 as stated fails: with [maxPeriodToLookFor = 0] no period is found
    and the assertion of the loop raises; and a short tuple that starts
    with the label ["CCC"] is returned raw by the compression and read as a
    compressed one by the expansion. *)
Lemma expand_compress_not_always_round_trip :
  dataset.expand_compress dataset.sqrt8 ["a"]%string 1 0 = Raise AssertionError
  /\ dataset.expand_compress dataset.sqrt8 ["CCC"]%string 20 20 = Ok []
  /\ map dataset.Label ["CCC"]%string = [dataset.Label "CCC"%string].
Proof. repeat split. Qed.

(** Without a period to look for, every string that is compressed and is
    not empty raises the assertion, whatever [numpy.sqrt] returns. *)
Lemma compress_maxPeriod_0 (np_sqrt : nat -> Q) (s : dataset.GateString)
    (minLenToCompress : Z) :
  s <> [] -> (minLenToCompress <= Z.of_nat (length s))%Z ->
  dataset.compress_gate_label_tuple np_sqrt s minLenToCompress 0 = Raise AssertionError.
Proof.
  intros Hs Hlen. unfold dataset.compress_gate_label_tuple.
  destruct (Z.ltb_spec (Z.of_nat (length s)) minLenToCompress); [lia|].
  destruct s as [|x s]; [congruence|]. reflexivity.
Qed.

(** ** The [DataSet] class *)

Section OrderedDictFacts.

Context {K V : Type} (eqb : K -> K -> bool).

Lemma od_set_new (k : K) (v : V) (d : OrderedDict K V) :
  od_get eqb k d = None -> od_set eqb k v d = d ++ [(k, v)].
Proof.
  induction d as [|[k' v'] d IH]; simpl; intros H; [reflexivity|].
  destruct (eqb k k'); [discriminate|]. now rewrite IH.
Qed.

Lemma od_set_keys (k : K) (v : V) (d : OrderedDict K V) (x : K) :
  In x (od_keys (od_set eqb k v d)) -> x = k \/ In x (od_keys d).
Proof.
  induction d as [|[k' v'] d IH]; simpl.
  - intros [<-|[]]. now left.
  - destruct (eqb k k'); simpl.
    + intros [<-|H]; right; [now left|now right].
    + intros [<-|H]; [right; now left|].
      destruct (IH H) as [->|H']; [now left|right; now right].
Qed.

Lemma od_of_list_keys (pairs : list (K * V)) (x : K) :
  In x (od_keys (od_of_list eqb pairs)) -> In x (map fst pairs).
Proof.
  unfold od_of_list.
  assert (H : forall d, In x (od_keys (fold_left (fun d kv => od_set eqb (fst kv) (snd kv) d) pairs d)) ->
                        In x (od_keys d) \/ In x (map fst pairs)).
  { induction pairs as [|[k v] pairs IH]; simpl; intros d Hx; [now left|].
    destruct (IH _ Hx) as [H|H]; [|right; now right].
    destruct (od_set_keys _ _ _ _ H) as [->|H']; [right; now left|now left]. }
  intros Hx. destruct (H [] Hx) as [[]|H']. exact H'.
Qed.

End OrderedDictFacts.

Section ListSetFacts.

Context {A : Type}.

Lemma list_set_ok (l : list A) (i : nat) (v : A) :
  i < length l ->
  exists l', list_set l i v = Ok l'
             /\ length l' = length l
             /\ nth_error l' i = Some v
             /\ forall j, j <> i -> nth_error l' j = nth_error l j.
Proof.
  revert i; induction l as [|x l IH]; intros i Hi; simpl in Hi; [lia|].
  destruct i as [|i]; simpl.
  - exists (v :: l). repeat split. intros [|j] Hj; [congruence|reflexivity].
  - destruct (IH i ltac:(lia)) as (l' & -> & Hlen & Hnth & Hother).
    exists (x :: l'). simpl. repeat split.
    + now rewrite Hlen.
    + exact Hnth.
    + intros [|j] Hj; [reflexivity|]. simpl. apply Hother. congruence.
Qed.

End ListSetFacts.

Section DataSetFacts.

Import dataset.

(** A data set made by the constructor alone has no row to index. *)
Lemma rows_indexed_new (spamLabels : list SpamLabel) (self : DataSet) :
  __init__ None None None (Some spamLabels) None false = Ok self ->
  rows_indexed self /\ gsIndex self = [] /\ counts self = [] /\ bStatic self = false.
Proof.
  cbn. intros [= <-]. repeat split. intros gs i H. discriminate.
Qed.

(** [add_count_list] keeps the invariant. *)
Lemma add_count_list_rows_indexed (self self' : DataSet) (gateString : GateString)
    (countList : list Q) (r : result unit) :
  rows_indexed self ->
  add_count_list gateString countList self = (r, self') ->
  rows_indexed self'.
Proof.
  intros Hwf. unfold add_count_list.
  destruct (bStatic self); [now intros [= _ <-]|].
  destruct (py_round (Qsum countList) =? 0)%Z; [now intros [= _ <-]|].
  destruct (Nat.eqb_spec (length countList) (length (slIndex self))) as [Hlen|_];
    cbn [negb]; [|now intros [= _ <-]].
  destruct (od_get tuple_eqb gateString (gsIndex self)) as [i|] eqn:Hget.
  - destruct (Hwf _ _ Hget) as (row & Hrow & Hrowlen).
    unfold list_get. rewrite Hrow. cbn [bind]. unfold np_iadd.
    rewrite Hrowlen, <- Hlen, Nat.eqb_refl. cbn [bind].
    destruct (list_set_ok (counts self) i
                (map (fun xy => (fst xy + snd xy)%Q) (combine row countList)))
      as (counts' & -> & Hlen' & Hnth & Hother).
    { apply nth_error_Some. congruence. }
    intros [= _ <-]. intros gs j Hj. cbn in Hj |- *.
    destruct (Nat.eq_dec j i) as [->|Hne].
    + eexists. split; [exact Hnth|].
      rewrite length_map, length_combine. lia.
    + rewrite (Hother j Hne). now apply (Hwf gs).
  - intros [= _ <-]. intros gs j Hj. cbn in Hj |- *.
    rewrite (od_set_new _ _ _ _ Hget) in Hj.
    assert (Hcases : od_get tuple_eqb gs (gsIndex self) = Some j
                     \/ j = length (counts self)).
    { clear -Hj. induction (gsIndex self) as [|[k v] d IH]; simpl in Hj |- *.
      - destruct (tuple_eqb gs gateString); [right; congruence|discriminate].
      - destruct (tuple_eqb gs k); [now left|now apply IH]. }
    destruct Hcases as [Hold| ->].
    + destruct (Hwf _ _ Hold) as (row & Hrow & Hrowlen).
      exists row. split; [|exact Hrowlen].
      rewrite nth_error_app1; [exact Hrow|]. apply nth_error_Some. congruence.
    + exists countList. split; [|exact Hlen].
      now rewrite nth_error_app2, Nat.sub_diag by lia.
Qed.

Lemma Gx_dataset_rows_indexed : rows_indexed Gx_dataset.
Proof.
  intros gs i H. cbn in H.
  destruct (tuple_eqb gs ["Gx"%string]); [|discriminate].
  injection H as <-. now exists [10%Q; 0%Q].
Qed.

(** C6: on a mutable data set, a count list with one count per spam label
    whose sum does not round to zero is added element by element to the row
    of a gate string that is a key of [gsIndex], the other rows and the
    indices unchanged; for a new gate string it becomes a new last row, and
    the gate string gets the index of that row.  And the spec's scenario:
    [{"plus":10,"minus":0}] then [{"plus":5,"minus":5}] for [("Gx",)] give
    the row [[15,5]]. *)
Theorem add_count_list_accumulates_or_appends :
  (forall (self : DataSet) (gateString : GateString) (countList : list Q),
     bStatic self = false ->
     rows_indexed self ->
     length countList = length (slIndex self) ->
     py_round (Qsum countList) <> 0%Z ->
     match od_get tuple_eqb gateString (gsIndex self) with
     | Some i =>
         exists row counts',
           nth_error (counts self) i = Some row
           /\ add_count_list gateString countList self
              = (Ok tt, mkDataSet (gsIndex self) (slIndex self) counts' false)
           /\ length counts' = length (counts self)
           /\ nth_error counts' i = Some (np_add row countList)
           /\ forall j, j <> i -> nth_error counts' j = nth_error (counts self) j
     | None =>
         add_count_list gateString countList self
         = (Ok tt, mkDataSet (gsIndex self ++ [(gateString, length (counts self))])
                             (slIndex self)
                             (counts self ++ [countList]) false)
     end)
  /\ (exists d0 d1 d2 : DataSet,
        __init__ None None None (Some ["plus"; "minus"]%string) None false = Ok d0
        /\ add_count_dict ["Gx"%string] [("plus"%string, 10%Q); ("minus"%string, 0%Q)] d0
           = (Ok tt, d1)
        /\ add_count_dict ["Gx"%string] [("plus"%string, 5%Q); ("minus"%string, 5%Q)] d1
           = (Ok tt, d2)
        /\ __getitem__ d2 ["Gx"%string] = Ok [15%Q; 5%Q]).
Proof.
  split.
  - intros self gateString countList Hmut Hwf Hlen Hsum.
    unfold add_count_list. rewrite Hmut.
    destruct (Z.eqb_spec (py_round (Qsum countList)) 0) as [E|_]; [congruence|].
    rewrite Hlen, Nat.eqb_refl. cbn [negb].
    destruct (od_get tuple_eqb gateString (gsIndex self)) as [i|] eqn:Hget.
    + destruct (Hwf _ _ Hget) as (row & Hrow & Hrowlen).
      unfold list_get. rewrite Hrow. cbn [bind]. unfold np_iadd.
      rewrite Hrowlen, <- Hlen, Nat.eqb_refl. cbn [bind].
      destruct (list_set_ok (counts self) i
                  (map (fun xy => (fst xy + snd xy)%Q) (combine row countList)))
        as (counts' & -> & Hlen' & Hnth & Hother).
      { apply nth_error_Some. congruence. }
      exists row, counts'. repeat split; assumption.
    + now rewrite (od_set_new _ _ _ _ Hget).
  - eexists _, _, _. repeat split.
Qed.

(** The second addition of the scenario, as a case of the theorem. *)
Lemma add_count_list_accumulates_witness :
  exists row counts',
    nth_error (counts Gx_dataset) 0 = Some row
    /\ add_count_list ["Gx"%string] [5%Q; 5%Q] Gx_dataset
       = (Ok tt, mkDataSet (gsIndex Gx_dataset) (slIndex Gx_dataset) counts' false)
    /\ length counts' = length (counts Gx_dataset)
    /\ nth_error counts' 0 = Some (np_add row [5%Q; 5%Q])
    /\ forall j, j <> 0 -> nth_error counts' j = nth_error (counts Gx_dataset) j.
Proof.
  apply (proj1 add_count_list_accumulates_or_appends Gx_dataset ["Gx"%string] [5%Q; 5%Q]).
  - reflexivity.
  - exact Gx_dataset_rows_indexed.
  - reflexivity.
  - vm_compute. discriminate.
Defined.

(** C7: on a mutable data set, a count list whose sum rounds to zero is
    dropped: the call returns, and [gsIndex], [slIndex], [counts] and
    [len(dataset)] are what they were. *)
Theorem add_count_list_zero_is_noop (self : DataSet) (gateString : GateString)
    (countList : list Q) :
  bStatic self = false ->
  py_round (Qsum countList) = 0%Z ->
  add_count_list gateString countList self = (Ok tt, self)
  /\ gsIndex (snd (add_count_list gateString countList self)) = gsIndex self
  /\ slIndex (snd (add_count_list gateString countList self)) = slIndex self
  /\ counts (snd (add_count_list gateString countList self)) = counts self
  /\ __len__ (snd (add_count_list gateString countList self)) = __len__ self.
Proof.
  intros Hmut Hzero.
  assert (E : add_count_list gateString countList self = (Ok tt, self)).
  { unfold add_count_list. now rewrite Hmut, Hzero. }
  rewrite E. repeat split.
Qed.

Lemma add_count_list_zero_is_noop_witness :
  add_count_list ["Gy"%string] [(1 # 4)%Q; (1 # 5)%Q] Gx_dataset = (Ok tt, Gx_dataset)
  /\ __len__ (snd (add_count_list ["Gy"%string] [(1 # 4)%Q; (1 # 5)%Q] Gx_dataset)) = 1.
Proof.
  destruct (add_count_list_zero_is_noop Gx_dataset ["Gy"%string] [(1 # 4)%Q; (1 # 5)%Q])
    as (E & _ & _ & _ & Hlen).
  - reflexivity.
  - reflexivity.
  - split; [exact E|exact Hlen].
Defined.

(** C8: on a static data set each of the four adding methods raises at
    once, and the data set is what it was. *)
Theorem static_dataset_rejects_additions (self : DataSet) (gateString : GateString)
    (countList : list Q) (countDict : OrderedDict SpamLabel Q) (nPlus nMinus : Q)
    (otherDataSet : DataSet) :
  bStatic self = true ->
  add_count_list gateString countList self = (Raise ValueError, self)
  /\ add_count_dict gateString countDict self = (Raise ValueError, self)
  /\ add_counts_1q gateString nPlus nMinus self = (Raise ValueError, self)
  /\ add_counts_from_dataset otherDataSet self = (Raise ValueError, self).
Proof.
  intros Hstatic.
  unfold add_count_list, add_count_dict, add_counts_1q, add_counts_from_dataset.
  rewrite Hstatic. repeat split.
Qed.

Lemma static_dataset_rejects_additions_witness :
  add_count_list ["Gx"%string] [5%Q; 5%Q] Gx_static_dataset
  = (Raise ValueError, Gx_static_dataset)
  /\ add_count_dict ["Gx"%string] [("plus"%string, 5%Q); ("minus"%string, 5%Q)]
       Gx_static_dataset
     = (Raise ValueError, Gx_static_dataset)
  /\ add_counts_1q ["Gx"%string] 5 5 Gx_static_dataset
     = (Raise ValueError, Gx_static_dataset)
  /\ add_counts_from_dataset Gx_dataset Gx_static_dataset
     = (Raise ValueError, Gx_static_dataset).
Proof.
  apply static_dataset_rejects_additions. reflexivity.
Defined.

(** The new fraction of two integer counts that sum to zero is a quotient by
    the double zero. *)
Lemma py_float_sum_zero (a b : Z) :
  (a + b = 0)%Z -> py_float (inject_Z a + inject_Z b) = Ok PrimFloat.zero.
Proof.
  intros Hsum. unfold py_float, to_float64.
  cbn [Qplus Qnum Qden inject_Z Pos.mul].
  replace (a * 1 + b * 1)%Z with 0%Z by lia.
  reflexivity.
Qed.




End DataSetFacts.

Section TruncateFacts.

Import dataset.

Lemma existsb_tuple_eqb (x : GateString) (seen : list GateString) :
  existsb (tuple_eqb x) seen = true <-> In x seen.
Proof.
  rewrite existsb_exists. split.
  - intros (y & Hy & E). apply tuple_eqb_eq in E. now subst.
  - intros H. exists x. split; [exact H|apply tuple_eqb_refl].
Qed.

Lemma remove_duplicates_acc_incl {A : Type} (eqb : A -> A -> bool)
    (l seen : list A) (x : A) :
  In x (remove_duplicates_acc eqb l seen) -> In x l.
Proof.
  revert seen; induction l as [|y l IH]; intros seen; simpl; [tauto|].
  destruct (existsb (eqb y) seen).
  - intros H. right. now apply (IH seen).
  - intros [->|H]; [now left|right; now apply (IH (y :: seen))].
Qed.

Lemma remove_duplicates_acc_complete (l seen : list GateString) (x : GateString) :
  In x l -> In x seen \/ In x (remove_duplicates_acc tuple_eqb l seen).
Proof.
  revert seen; induction l as [|y l IH]; intros seen; simpl; [tauto|].
  intros [->|H].
  - destruct (existsb (tuple_eqb x) seen) eqn:E.
    + left. now apply existsb_tuple_eqb.
    + right. now left.
  - destruct (existsb (tuple_eqb y) seen) eqn:E.
    + now apply IH.
    + destruct (IH (y :: seen) H) as [[->|Hs]|Hr].
      * right. now left.
      * now left.
      * right. now right.
Qed.

Lemma remove_duplicates_In (l : list GateString) (x : GateString) :
  In x (remove_duplicates tuple_eqb l) <-> In x l.
Proof.
  split.
  - apply remove_duplicates_acc_incl.
  - intros H. destruct (remove_duplicates_acc_complete l [] x H) as [[]|H']. exact H'.
Qed.

(** The static loop only gathers gate strings of the list it reads. *)
Lemma truncate_static_loop_incl (self : DataSet) (bThrow : bool)
    (toKeep gateStrings : list GateString) (indices : list nat)
    (gateStrings' : list GateString) (indices' : list nat) :
  truncate_static_loop self bThrow toKeep gateStrings indices
  = Ok (gateStrings', indices') ->
  forall x, In x gateStrings' -> In x gateStrings \/ In x toKeep.
Proof.
  revert gateStrings indices; induction toKeep as [|gs toKeep IH];
    intros gateStrings indices; simpl.
  - intros [= <- <-] x Hx. now left.
  - destruct (od_get tuple_eqb gs (gsIndex self)) as [i|].
    + intros H x Hx. destruct (IH _ _ H x Hx) as [Hin|Hin]; [|right; now right].
      destruct bThrow; [now left|].
      apply in_app_or in Hin as [Hin|[<-|[]]]; [now left|right; now left].
    + destruct bThrow; [discriminate|].
      intros H x Hx. destruct (IH _ _ H x Hx) as [Hin|Hin]; [now left|right; now right].
Qed.

(** With [bThrowErrorIfStringIsMissing] the static loop raises on a list
    with a gate string that is no key. *)
Lemma truncate_static_loop_missing (self : DataSet)
    (toKeep gateStrings : list GateString) (indices : list nat) :
  (exists gs, In gs toKeep /\ od_get tuple_eqb gs (gsIndex self) = None) ->
  truncate_static_loop self true toKeep gateStrings indices = Raise ValueError.
Proof.
  revert gateStrings indices; induction toKeep as [|gs toKeep IH];
    intros gateStrings indices (x & Hin & Hx); simpl; [destruct Hin|].
  destruct (od_get tuple_eqb gs (gsIndex self)) as [i|] eqn:E; [|reflexivity].
  apply IH. exists x. split; [|exact Hx].
  destruct Hin as [->|Hin]; [congruence|exact Hin].
Qed.

Lemma add_count_list_keys (t t' : DataSet) (gateString : GateString)
    (countList : list Q) (r : result unit) :
  add_count_list gateString countList t = (r, t') ->
  forall x, In x (keys t') -> x = gateString \/ In x (keys t).
Proof.
  unfold add_count_list.
  destruct (bStatic t); [intros [= _ <-]; now right|].
  destruct (py_round (Qsum countList) =? 0)%Z; [intros [= _ <-]; now right|].
  destruct (negb _); [intros [= _ <-]; now right|].
  destruct (od_get tuple_eqb gateString (gsIndex t)) as [i|].
  - destruct (bind _ _); intros [= _ <-]; now right.
  - intros [= _ <-] x Hx. unfold keys in *. cbn in Hx.
    now apply od_set_keys in Hx.
Qed.

(** The mutable loop only adds gate strings of the list it reads. *)
Lemma truncate_mutable_loop_keys (self : DataSet) (bThrow : bool)
    (toKeep : list GateString) (t t' : DataSet) (r : result unit) :
  truncate_mutable_loop self bThrow toKeep t = (r, t') ->
  forall x, In x (keys t') -> In x (keys t) \/ In x toKeep.
Proof.
  revert t; induction toKeep as [|gs toKeep IH]; intros t; simpl.
  - intros [= _ <-] x Hx. now left.
  - destruct (od_get tuple_eqb gs (gsIndex self)) as [i|].
    + unfold bindM, lift.
      destruct (list_get (counts self) i) as [row|e]; [|intros [= _ <-]; now left].
      destruct (add_count_list gs row t) as [[[]|e] t1] eqn:Eadd.
      * intros H x Hx. destruct (IH _ H x Hx) as [Hin|Hin]; [|right; now right].
        destruct (add_count_list_keys _ _ _ _ _ Eadd x Hin) as [->|Hin'];
          [right; now left|now left].
      * intros [= _ <-] x Hx.
        destruct (add_count_list_keys _ _ _ _ _ Eadd x Hx) as [->|Hin'];
          [right; now left|now left].
    + destruct bThrow.
      * intros [= _ <-]. now left.
      * intros H x Hx. destruct (IH _ H x Hx) as [Hin|Hin]; [now left|right; now right].
Qed.

(** With [bThrowErrorIfStringIsMissing] the mutable loop raises on a list
    with a gate string that is no key. *)
Lemma truncate_mutable_loop_missing (self : DataSet) (toKeep : list GateString)
    (t : DataSet) :
  (exists gs, In gs toKeep /\ od_get tuple_eqb gs (gsIndex self) = None) ->
  exists e t', truncate_mutable_loop self true toKeep t = (Raise e, t').
Proof.
  revert t; induction toKeep as [|gs toKeep IH]; intros t (x & Hin & Hx); simpl;
    [destruct Hin|].
  destruct (od_get tuple_eqb gs (gsIndex self)) as [i|] eqn:E.
  - unfold bindM, lift.
    destruct (list_get (counts self) i) as [row|e]; [|now exists e, t].
    destruct (add_count_list gs row t) as [[[]|e] t1]; [|now exists e, t1].
    apply IH. exists x. split; [|exact Hx].
    destruct Hin as [->|Hin]; [congruence|exact Hin].
  - now exists ValueError, t.
Qed.

(** C9: every gate string of the data set [truncate] returns is one of the
    list to keep, for a static and for a mutable data set; and with
    [bThrowErrorIfStringIsMissing], when a string of the list is no key of
    the data set, the call raises and the data set is what it was. *)
Theorem truncate_keeps_only_requested (self : DataSet)
    (listOfGateStringsToKeep : list GateString) (bThrowErrorIfStringIsMissing : bool) :
  (forall trunc_dataset : DataSet,
     fst (truncate listOfGateStringsToKeep bThrowErrorIfStringIsMissing self)
     = Ok trunc_dataset ->
     forall gs, In gs (keys trunc_dataset) -> In gs listOfGateStringsToKeep)
  /\ (bThrowErrorIfStringIsMissing = true ->
      (exists gs, In gs listOfGateStringsToKeep
                  /\ od_get tuple_eqb gs (gsIndex self) = None) ->
      exists e, truncate listOfGateStringsToKeep bThrowErrorIfStringIsMissing self
                = (Raise e, self)).
Proof.
  unfold truncate. destruct (bStatic self) eqn:Hstatic; cbn [fst]; split.
  - intros t.
    destruct (truncate_static_loop self bThrowErrorIfStringIsMissing
                listOfGateStringsToKeep [] []) as [[gss idxs]|e] eqn:Eloop;
      [|discriminate].
    cbn [bind fst snd]. unfold __init__. cbn [bind].
    destruct (match od_values _ with [] => true | _ :: _ => _ end); [|discriminate].
    intros [= <-] gs Hgs. unfold keys in Hgs. cbn in Hgs.
    apply od_of_list_keys in Hgs.
    assert (Hin : In gs (if bThrowErrorIfStringIsMissing
                         then listOfGateStringsToKeep else gss)).
    { clear -Hgs. revert Hgs. generalize (if bThrowErrorIfStringIsMissing
                                          then listOfGateStringsToKeep else gss).
      intros l. revert idxs. induction l as [|a l IH]; intros [|i idxs]; simpl; try tauto.
      intros [<-|H]; [now left|right; now apply (IH idxs)]. }
    destruct bThrowErrorIfStringIsMissing; [exact Hin|].
    destruct (truncate_static_loop_incl _ _ _ _ _ _ _ Eloop gs Hin) as [[]|H].
    exact H.
  - intros -> Hmissing.
    rewrite (truncate_static_loop_missing self _ [] [] Hmissing).
    now exists ValueError.
  - intros t. cbn [__init__ bind negb].
    destruct (truncate_mutable_loop _ _ _ _) as [[[]|e] t'] eqn:Eloop; [|discriminate].
    intros [= <-] gs Hgs.
    destruct (truncate_mutable_loop_keys _ _ _ _ _ _ Eloop gs Hgs) as [[]|H].
    now apply remove_duplicates_In.
  - intros -> (gs & Hin & Hgs). cbn [__init__ bind negb].
    destruct (truncate_mutable_loop_missing self
                (remove_duplicates tuple_eqb listOfGateStringsToKeep)
                (mkDataSet [] (od_of_list String.eqb (enumerate (get_spam_labels self)))
                           [] false))
      as (e & t' & ->).
    { exists gs. split; [now apply remove_duplicates_In|exact Hgs]. }
    now exists e.
Qed.

(** Truncating the scenario's data set to [("Gx",)] and [("Gy",)]: the
    strict call raises and leaves it as it was, the lenient one keeps
    [("Gx",)] alone. *)
Lemma truncate_keeps_only_requested_witness :
  (exists e, truncate [["Gx"%string]; ["Gy"%string]] true Gx_dataset
             = (Raise e, Gx_dataset))
  /\ (exists trunc_dataset,
        fst (truncate [["Gx"%string]; ["Gy"%string]] false Gx_dataset) = Ok trunc_dataset
        /\ keys trunc_dataset = [["Gx"%string]]
        /\ forall gs, In gs (keys trunc_dataset)
                      -> In gs [["Gx"%string]; ["Gy"%string]]).
Proof.
  split.
  - apply (proj2 (truncate_keeps_only_requested Gx_dataset
                    [["Gx"%string]; ["Gy"%string]] true) eq_refl).
    exists ["Gy"%string]. split; [right; now left|reflexivity].
  - eexists. split; [reflexivity|]. split; [reflexivity|].
    apply (proj1 (truncate_keeps_only_requested Gx_dataset
                    [["Gx"%string]; ["Gy"%string]] false)).
    reflexivity.
Defined.

End TruncateFacts.

(** ** The amplification test *)

Section SortedFacts.

Context {A : Type} (leb : A -> A -> bool).

Lemma insert_sorted_perm (x : A) (l : list A) :
  Permutation (insert_sorted leb x l) (x :: l).
Proof.
  induction l as [|y l IH]; simpl; [reflexivity|].
  destruct (leb y x); [|reflexivity].
  rewrite IH. apply perm_swap.
Qed.

Lemma sorted_perm (l : list A) : Permutation (sorted leb l) l.
Proof.
  unfold sorted.
  assert (H : forall acc, Permutation (fold_left (fun acc x => insert_sorted leb x acc) l acc)
                                      (acc ++ l)).
  { induction l as [|x l IH]; intros acc; simpl.
    - now rewrite app_nil_r.
    - rewrite IH, insert_sorted_perm. apply Permutation_middle. }
  apply (H []).
Qed.

Lemma sorted_length (l : list A) : length (sorted leb l) = length l.
Proof. apply Permutation_length, sorted_perm. Qed.

Hypothesis leb_total : forall a b, leb a b = true \/ leb b a = true.

Lemma insert_sorted_Sorted (x : A) (l : list A) :
  Sorted (fun a b => leb a b = true) l ->
  Sorted (fun a b => leb a b = true) (insert_sorted leb x l).
Proof.
  induction 1 as [|y l Hl IH Hhd]; simpl.
  - repeat constructor.
  - destruct (leb y x) eqn:E.
    + constructor; [exact IH|].
      destruct l as [|z l]; simpl.
      * now constructor.
      * inversion Hhd; subst. destruct (leb z x); now constructor.
    + constructor; [now constructor|].
      constructor. destruct (leb_total x y); congruence.
Qed.

Lemma sorted_Sorted (l : list A) : Sorted (fun a b => leb a b = true) (sorted leb l).
Proof.
  unfold sorted.
  assert (H : forall acc, Sorted (fun a b => leb a b = true) acc ->
                          Sorted (fun a b => leb a b = true)
                                 (fold_left (fun acc x => insert_sorted leb x acc) l acc)).
  { induction l as [|x l IH]; intros acc Hacc; simpl; [exact Hacc|].
    apply IH, insert_sorted_Sorted, Hacc. }
  apply H. constructor.
Qed.

End SortedFacts.

Section CountFacts.

Context {A : Type}.

Lemma fold_left_count (f : A -> bool) (l : list A) (a : nat) :
  fold_left (fun n v => if f v then n + 1 else n) l a = a + length (filter f l).
Proof.
  revert a; induction l as [|x l IH]; intros a; simpl; [lia|].
  rewrite IH. destruct (f x); simpl; lia.
Qed.

Lemma filter_length_le (f g : A -> bool) (l : list A) :
  (forall x, f x = true -> g x = true) ->
  length (filter f l) <= length (filter g l).
Proof.
  intros Himp. induction l as [|x l IH]; simpl; [lia|].
  destruct (f x) eqn:E.
  - rewrite (Himp x E). simpl. lia.
  - destruct (g x); simpl; lia.
Qed.

Lemma filter_all_false (f : A -> bool) (l : list A) :
  (forall x, In x l -> f x = false) -> filter f l = [].
Proof.
  induction l as [|x l IH]; simpl; intros H; [reflexivity|].
  rewrite (H x) by now left. apply IH. intros y Hy. apply H. now right.
Qed.

Lemma filter_map_length {B : Type} (f : A -> bool) (g : B -> A) (l : list B) :
  length (filter f (map g l)) = length (filter (fun x => f (g x)) l).
Proof.
  induction l as [|x l IH]; simpl; [reflexivity|].
  destruct (f (g x)); simpl; now rewrite IH.
Qed.

Lemma combine_nth_seq {B : Type} (l0 : list A) (l1 : list B) (d0 : A) (d1 : B) :
  combine l0 l1
  = map (fun i => (nth i l0 d0, nth i l1 d1))
        (seq 0 (Nat.min (length l0) (length l1))).
Proof.
  revert l1; induction l0 as [|x l0 IH]; intros [|y l1]; simpl; try reflexivity.
  rewrite <- seq_shift, map_map. now rewrite IH.
Qed.

Lemma combine_same (l : list A) (v : A * A) :
  In v (combine l l) -> fst v = snd v.
Proof.
  induction l as [|x l IH]; simpl; [tauto|].
  intros [<-|H]; [reflexivity|now apply IH].
Qed.

End CountFacts.

Section AmplificationFacts.

Import fiducialpairreduction.

Variable svd : Matrix -> option (list Q).

(** [sorted(s, reverse=True)] is [s] in descending order. *)
Lemma sorted_reverse_descending (s : list Q) :
  Permutation (sorted_reverse s) s
  /\ Sorted (fun a b => (b <= a)%Q) (sorted_reverse s).
Proof.
  split; [apply sorted_perm|].
  unfold sorted_reverse.
  eapply Sorted_ind with (P := fun l => Sorted (fun a b => (b <= a)%Q) l);
    [constructor| |apply sorted_Sorted].
  - intros a l _ IH Hhd. constructor; [exact IH|].
    destruct Hhd as [|b l Hb]; constructor. now apply Qle_bool_iff.
  - intros a b. destruct (Qlt_le_dec a b) as [H|H].
    + right. apply Qle_bool_iff. now apply Qlt_le_weak.
    + left. now apply Qle_bool_iff.
Qed.

Lemma Qgtb_mono (x t1 t2 : Q) :
  (t1 <= t2)%Q -> Qgtb x t2 = true -> Qgtb x t1 = true.
Proof.
  unfold Qgtb. rewrite !Qltb_lt. intros H1 H2. now apply Qle_lt_trans with t2.
Qed.

(** The tester returns when [L0] is not zero: the count of the pairs that
    pass the test, or zero when a decomposition fails. *)
Lemma get_number_amplified_ok (tol : Q) (M0 M1 : Matrix) (L0 L1 : Z) :
  L0 <> 0%Z ->
  get_number_amplified svd tol M0 M1 L0 L1
  = Ok (match svd M0, svd M1 with
        | Some s0, Some s1 =>
            length (filter (is_amplified L0 L1 tol)
                           (combine (sorted_reverse s0) (sorted_reverse s1)))
        | _, _ => 0
        end).
Proof.
  intros HL0. unfold get_number_amplified.
  destruct (Z.eqb_spec L0 0) as [E|_]; [contradiction|].
  destruct (svd M0) as [s0|]; [|reflexivity].
  destruct (svd M1) as [s1|]; [|reflexivity].
  now rewrite fold_left_count.
Qed.

(** The test of the loop does not tell a fraction from its reduced form. *)
Lemma Qltb_compat (x x' y y' : Q) :
  (x == x')%Q -> (y == y')%Q -> Qltb x y = Qltb x' y'.
Proof.
  intros Hx Hy. destruct (Qltb x' y') eqn:E.
  - apply Qltb_lt. apply Qltb_lt in E. now rewrite Hx, Hy.
  - apply Qltb_ge. apply Qltb_ge in E. now rewrite Hx, Hy.
Qed.

Lemma is_amplified_Qred (L0 L1 : Z) (tol a b : Q) :
  is_amplified L0 L1 tol (Qred a, Qred b) = is_amplified L0 L1 tol (a, b).
Proof.
  unfold is_amplified, ratio_exceeds, Qgtb. cbn [fst snd].
  f_equal.
  - apply Qltb_compat; [reflexivity|]. now rewrite Qred_correct.
  - destruct (L1 =? 0)%Z; apply Qltb_compat; try reflexivity;
      now rewrite !Qred_correct.
Qed.

Lemma filter_combine_Qred (L0 L1 : Z) (tol : Q) (l0 l1 : list Q) :
  length (filter (is_amplified L0 L1 tol) (combine (map Qred l0) (map Qred l1)))
  = length (filter (is_amplified L0 L1 tol) (combine l0 l1)).
Proof.
  revert l1; induction l0 as [|a l0 IH]; intros [|b l1]; cbn [map combine filter];
    try reflexivity.
  rewrite is_amplified_Qred.
  destruct (is_amplified L0 L1 tol (a, b)); cbn [length]; now rewrite IH.
Qed.

(** Two descending lists of reduced fractions with the same values are one
    list. *)
Lemma descending_unique (l l' : list Q) :
  Forall (fun x => Qred x = x) l ->
  Permutation l l' ->
  StronglySorted (fun a b => (b <= a)%Q) l ->
  StronglySorted (fun a b => (b <= a)%Q) l' ->
  l = l'.
Proof.
  revert l'. induction l as [|a l IH]; intros l' Hred Hperm Hl Hl'.
  - now apply Permutation_nil in Hperm.
  - destruct l' as [|b l'].
    { apply Permutation_sym, Permutation_nil in Hperm. discriminate Hperm. }
    inversion Hl as [|? ? Hl1 Ha]; subst.
    inversion Hl' as [|? ? Hl1' Hb]; subst.
    inversion Hred as [|? ? Hra Hred1]; subst.
    assert (Hab : (a <= b)%Q).
    { assert (Hin : In a (b :: l')) by (apply (Permutation_in _ Hperm); now left).
      destruct Hin as [->|Hin]; [apply Qle_refl|].
      rewrite Forall_forall in Hb. now apply Hb. }
    assert (Hba : (b <= a)%Q).
    { assert (Hin : In b (a :: l))
        by (apply (Permutation_in _ (Permutation_sym Hperm)); now left).
      destruct Hin as [->|Hin]; [apply Qle_refl|].
      rewrite Forall_forall in Ha. now apply Ha. }
    assert (Hrb : Qred b = b).
    { assert (Hin : In b (a :: l))
        by (apply (Permutation_in _ (Permutation_sym Hperm)); now left).
      rewrite Forall_forall in Hred. now apply Hred. }
    assert (E : a = b).
    { rewrite <- Hra, <- Hrb. apply Qred_complete. now apply Qle_antisym. }
    subst b. f_equal. apply IH; try assumption.
    now apply Permutation_cons_inv with a.
Qed.

Lemma descending_map_Qred (l : list Q) :
  Sorted (fun a b => (b <= a)%Q) l ->
  StronglySorted (fun a b => (b <= a)%Q) (map Qred l).
Proof.
  intros Hl. apply Sorted_StronglySorted in Hl.
  2:{ intros x y z Hxy Hyz. now apply Qle_trans with y. }
  induction Hl as [|a l Hl IH Ha]; cbn [map]; constructor; [exact IH|].
  rewrite Forall_forall in *. intros y Hy.
  apply in_map_iff in Hy as (x & <- & Hx).
  rewrite !Qred_correct. now apply Ha.
Qed.

(** However a list is sorted in descending order, the reduced fractions
    are those of [sorted(s, reverse=True)], position by position. *)
Lemma descending_sort_of_sorted_reverse (s t : list Q) :
  descending_sort_of s t -> map Qred t = map Qred (sorted_reverse s).
Proof.
  intros [Hperm Hsorted].
  destruct (sorted_reverse_descending s) as [Hperm' Hsorted'].
  apply descending_unique.
  - apply Forall_forall. intros y Hy.
    apply in_map_iff in Hy as (x & <- & _).
    apply Qred_complete, Qred_correct.
  - apply Permutation_map. rewrite Hperm'. now symmetry.
  - now apply descending_map_Qred.
  - now apply descending_map_Qred.
Qed.


(** C3: when the decomposition of either matrix fails, the tester returns
    zero.  (The quotient [float(L1)/float(L0)] is taken before the
    decompositions are tried, so [L0] is not zero.) *)
Theorem get_number_amplified_svd_failure (tol : Q) (M0 M1 : Matrix) (L0 L1 : Z) :
  L0 <> 0%Z ->
  svd M0 = None \/ svd M1 = None ->
  get_number_amplified svd tol M0 M1 L0 L1 = Ok 0.
Proof.
  intros HL0 Hfail. rewrite get_number_amplified_ok by exact HL0.
  destruct Hfail as [-> | ->]; [reflexivity|].
  now destruct (svd M0).
Qed.

(** C5: matrices and lengths fixed, the count at a tolerance is at least
    the count at any larger tolerance. *)
Theorem get_number_amplified_antitone_in_tolerance (M0 M1 : Matrix) (L0 L1 : Z)
    (t1 t2 : Q) :
  L0 <> 0%Z ->
  (t1 <= t2)%Q ->
  exists n1 n2,
    get_number_amplified svd t1 M0 M1 L0 L1 = Ok n1
    /\ get_number_amplified svd t2 M0 M1 L0 L1 = Ok n2
    /\ n2 <= n1.
Proof.
  intros HL0 Ht. rewrite !get_number_amplified_ok by exact HL0.
  eexists _, _. split; [reflexivity|]. split; [reflexivity|].
  destruct (svd M0) as [s0|]; [|lia].
  destruct (svd M1) as [s1|]; [|lia].
  apply filter_length_le. intros [v0 v1].
  unfold is_amplified, ratio_exceeds. cbn [fst snd].
  rewrite !andb_true_iff. intros [H1 H2]. split; [exact H1|].
  destruct (L1 =? 0)%Z; [exact H2|].
  now apply Qgtb_mono with t2.
Qed.

End AmplificationFacts.


Lemma get_number_amplified_svd_failure_witness :
  fiducialpairreduction.get_number_amplified (fun _ => None) (3 # 4)
    (fiducialpairreduction.example_derivs 256)
    (fiducialpairreduction.example_derivs 2048) 256 2048
  = Ok 0.
Proof.
  apply get_number_amplified_svd_failure.
  - discriminate.
  - now left.
Defined.

Lemma get_number_amplified_antitone_witness :
  exists n1 n2,
    fiducialpairreduction.get_number_amplified fiducialpairreduction.example_svd (1 # 2)
      (fiducialpairreduction.example_derivs 256)
      (fiducialpairreduction.example_derivs 2048) 256 2048 = Ok n1
    /\ fiducialpairreduction.get_number_amplified fiducialpairreduction.example_svd (3 # 4)
         (fiducialpairreduction.example_derivs 256)
         (fiducialpairreduction.example_derivs 2048) 256 2048 = Ok n2
    /\ n2 <= n1.
Proof.
  apply get_number_amplified_antitone_in_tolerance.
  - discriminate.
  - discriminate.
Defined.

(** ** The search for a sufficient set of fiducial pairs *)

Section FindFacts.

Context {A : Type} (f : A -> bool).

Lemma find_app_first (l1 l2 : list A) :
  find f (l1 ++ l2) = match find f l1 with
                      | Some x => Some x
                      | None => find f l2
                      end.
Proof.
  induction l1 as [|x l1 IH]; simpl; [reflexivity|].
  now destruct (f x).
Qed.

(** [find] returns the first element that passes. *)
Lemma find_first (l : list A) :
  match find f l with
  | Some c => exists pre post,
                l = pre ++ c :: post
                /\ (forall x, In x pre -> f x = false)
                /\ f c = true
  | None => forall x, In x l -> f x = false
  end.
Proof.
  induction l as [|x l IH]; simpl; [tauto|].
  destruct (f x) eqn:E.
  - exists [], l. repeat split; [intros y []|exact E].
  - destruct (find f l) as [c|].
    + destruct IH as (pre & post & -> & Hpre & Hc).
      exists (x :: pre), post. repeat split; [|exact Hc].
      intros y [<-|Hy]; [exact E|now apply Hpre].
    + intros y [<-|Hy]; [exact E|now apply IH].
Qed.

End FindFacts.

Lemma fact_mul_le (k m : nat) : fact k * fact m <= fact (k + m).
Proof.
  induction k as [|k IH]; simpl; [lia|].
  pose proof (fact_neq_0 (k + m)). nia.
Qed.

(** There is at least one combination of [r] items out of [n >= r]. *)
Lemma nCr_pos (n r : nat) : r <= n -> 1 <= fiducialpairreduction._nCr n r.
Proof.
  intros H. unfold fiducialpairreduction._nCr.
  rewrite Nat.Div0.div_div.
  apply Nat.div_le_lower_bound.
  - pose proof (fact_neq_0 r). pose proof (fact_neq_0 (n - r)). nia.
  - pose proof (fact_mul_le r (n - r)).
    replace (r + (n - r)) with n in * by lia. lia.
Qed.

(** [filterAll] raises only on its first look-up, and only when there is
    no index to look for. *)
Lemma filterAll_ok {A : Type} (randIndices : list nat) (it : list A) (i nxt : nat) :
  nxt < length randIndices ->
  exists l, fiducialpairreduction.filterAll randIndices it i nxt = Ok l.
Proof.
  revert i nxt; induction it as [|val it IH]; intros i nxt Hnxt; simpl.
  - now exists [].
  - unfold list_get.
    destruct (nth_error randIndices nxt) as [r|] eqn:E.
    2:{ apply nth_error_None in E. lia. }
    cbn [bind]. destruct (i =? r).
    + destruct (Nat.eqb_spec (nxt + 1) (length randIndices)) as [_|Hne].
      * now exists [val].
      * destruct (IH (i + 1) (nxt + 1) ltac:(lia)) as (l & ->).
        now exists (val :: l).
    + now apply IH.
Qed.

Lemma remove_duplicates_nonempty {A : Type} (eqb : A -> A -> bool) (l : list A) :
  l <> [] -> remove_duplicates eqb l <> [].
Proof.
  destruct l as [|x l]; [congruence|]. intros _. cbn. discriminate.
Qed.

Section SearchFacts.

Import fiducialpairreduction.

Variable svd : Matrix -> option (list Q).
Variable get_derivs : Z -> Matrix.
Variable randint : nat -> nat -> Z -> list nat.
Variables nRhoStrs nEStrs nGerms nSpamLabels : nat.
Variables L0 L1 : Z.
Variable tol : Q.

Hypothesis L0_not_zero : L0 <> 0%Z.

Local Abbreviation nAmplified_of :=
  (nAmplified_of svd get_derivs nRhoStrs nEStrs nGerms nSpamLabels L0 L1 tol).
Local Abbreviation amplified_count :=
  (amplified_count svd get_derivs nRhoStrs nEStrs nGerms nSpamLabels L0 L1 tol).
Local Abbreviation test_candidates :=
  (test_candidates svd get_derivs nRhoStrs nEStrs nGerms nSpamLabels L0 L1 tol).
Local Abbreviation search_sizes :=
  (search_sizes svd get_derivs randint nRhoStrs nEStrs nGerms nSpamLabels L0 L1 tol).
Local Abbreviation pairIndicesToIterateOver :=
  (pairIndicesToIterateOver randint nRhoStrs nEStrs).
Local Abbreviation candidates_of := (candidates_of randint nRhoStrs nEStrs).
Local Abbreviation all_candidates := (all_candidates randint nRhoStrs nEStrs).
Local Abbreviation nPossiblePairs := (nPossiblePairs nRhoStrs nEStrs).
Local Abbreviation maxAmplified_full := (maxAmplified_full svd get_derivs L0 L1 tol).

Lemma nAmplified_of_ok (pairIndicesToTest : list nat) :
  nAmplified_of pairIndicesToTest = Ok (amplified_count pairIndicesToTest).
Proof.
  unfold fiducialpairreduction.amplified_count, fiducialpairreduction.nAmplified_of.
  now rewrite get_number_amplified_ok by exact L0_not_zero.
Qed.

(** The inner loop returns the pairs of the first candidate whose count is
    [maxAmplified], and falls through when there is none. *)
Lemma test_candidates_find (maxAmplified : nat) (candidates : list (list nat)) :
  test_candidates maxAmplified candidates
  = Ok (option_map (pairs_of nEStrs)
          (find (fun c => amplified_count c =? maxAmplified) candidates)).
Proof.
  induction candidates as [|c candidates IH]; simpl; [reflexivity|].
  rewrite nAmplified_of_ok. cbn [bind].
  now destruct (amplified_count c =? maxAmplified).
Qed.

(** The outer loop, when every turn has its candidates: the first match
    over the sizes in their order, or every pair. *)
Lemma search_sizes_find (searchMode : string) (nRandom : Z) (maxAmplified : nat)
    (sizes : list nat) :
  (forall k, In k sizes ->
     pairIndicesToIterateOver searchMode nRandom k
     = Ok (candidates_of searchMode nRandom k)) ->
  search_sizes searchMode nRandom maxAmplified sizes
  = Ok (match find (fun c => amplified_count c =? maxAmplified)
                   (flat_map (candidates_of searchMode nRandom) sizes) with
        | Some c => pairs_of nEStrs c
        | None => listOfAllPairs nRhoStrs nEStrs
        end).
Proof.
  induction sizes as [|k sizes IH]; intros Hcands; [reflexivity|].
  cbn [fiducialpairreduction.search_sizes flat_map].
  rewrite (Hcands k) by now left. cbn [bind].
  rewrite test_candidates_find. cbn [bind]. rewrite find_app_first.
  destruct (find _ (candidates_of searchMode nRandom k)); cbn [option_map];
    [reflexivity|].
  apply IH. intros k' Hk'. apply Hcands. now right.
Qed.

(** In the two modes of the search every turn has its candidates. *)
Lemma pairIndicesToIterateOver_ok (searchMode : string) (nRandom : Z) (k : nat) :
  searchMode = "sequential"%string
  \/ (searchMode = "random"%string
      /\ (0 < nRandom)%Z
      /\ forall nNeededPairs high,
           length (randint nNeededPairs high nRandom) = Z.to_nat nRandom) ->
  k <= nPossiblePairs ->
  pairIndicesToIterateOver searchMode nRandom k
  = Ok (candidates_of searchMode nRandom k).
Proof.
  intros Hmode Hk. unfold fiducialpairreduction.candidates_of.
  destruct Hmode as [-> | (-> & Hpos & Hlen)]; [reflexivity|].
  unfold fiducialpairreduction.pairIndicesToIterateOver. cbn [String.eqb Ascii.eqb Bool.eqb].
  cbv iota.
  set (nTotal := _nCr (length (allPairIndices nRhoStrs nEStrs)) k).
  assert (HnTotal : 1 <= nTotal).
  { apply nCr_pos. unfold allPairIndices. now rewrite length_seq. }
  set (randIndices := if (nRandom <? Z.of_nat nTotal)%Z then _ else _).
  assert (Hrand : exists l, randIndices = Ok l /\ 0 < length l).
  { unfold randIndices. destruct (nRandom <? Z.of_nat nTotal)%Z.
    - destruct (Z.ltb_spec nRandom 0); [lia|].
      eexists. split; [reflexivity|].
      apply Nat.neq_0_lt_0. intros E. apply length_zero_iff_nil in E.
      revert E. apply remove_duplicates_nonempty.
      intros E. apply (f_equal (@length _)) in E.
      rewrite sorted_length, Hlen in E. simpl in E. lia.
    - exists (seq 0 nTotal). split; [reflexivity|]. rewrite length_seq. lia. }
  destruct Hrand as (l & -> & Hl). cbn [bind].
  destruct (filterAll_ok l (combinations (allPairIndices nRhoStrs nEStrs) k) 0 0 Hl)
    as (cands & ->).
  reflexivity.
Qed.

(** In the sequential mode the candidates of a size are its combinations,
    in the order of [itertools.combinations]. *)
Lemma candidates_of_sequential (nRandom : Z) (k : nat) :
  candidates_of "sequential" nRandom k
  = combinations (allPairIndices nRhoStrs nEStrs) k.
Proof. reflexivity. Qed.

End SearchFacts.

(** The stand-in for [randint] returns as many samples as it is asked for,
    which is what the random mode of the search needs; with two samples out
    of the six lists of two pairs, the turn for two pairs tests two lists. *)
Lemma example_randint_length (nNeededPairs high : nat) (size : Z) :
  length (fiducialpairreduction.example_randint nNeededPairs high size) = Z.to_nat size.
Proof.
  unfold fiducialpairreduction.example_randint.
  now rewrite length_map, length_seq.
Qed.

Lemma pairIndicesToIterateOver_random_example :
  fiducialpairreduction.pairIndicesToIterateOver
    fiducialpairreduction.example_randint 2 2 "random" 2 2
  = Ok [[0; 1]; [2; 3]].
Proof. reflexivity. Qed.

(** ** Further properties of the [DataSet] class *)

Section OrderedDictLookups.

Import dataset.

Lemma od_get_None_not_key (gs : GateString) (d : OrderedDict GateString nat) :
  od_get tuple_eqb gs d = None -> ~ In gs (od_keys d).
Proof.
  induction d as [|[k v] d IH]; simpl; [tauto|].
  destruct (tuple_eqb gs k) eqn:E; [discriminate|].
  intros H [<-|Hin]; [now rewrite tuple_eqb_refl in E|now apply IH].
Qed.

Lemma od_get_nth (d : OrderedDict GateString nat) (n : nat) (k : GateString) (v : nat) :
  NoDup (od_keys d) -> nth_error d n = Some (k, v) ->
  od_get tuple_eqb k d = Some v.
Proof.
  revert n; induction d as [|[k' v'] d IH]; intros n Hnd Hn.
  - destruct n; discriminate.
  - simpl in Hnd. inversion Hnd as [|? ? Hnotin Hnd']; subst.
    destruct n as [|n]; simpl in Hn |- *.
    + injection Hn as -> ->. now rewrite tuple_eqb_refl.
    + destruct (tuple_eqb k k') eqn:E.
      * apply tuple_eqb_eq in E. subst k'. exfalso. apply Hnotin.
        apply nth_error_In in Hn. now apply (in_map fst) in Hn.
      * now apply (IH n).
Qed.

Lemma od_get_app_old (gs k : GateString) (v i : nat) (d : OrderedDict GateString nat) :
  od_get tuple_eqb gs d = Some i -> od_get tuple_eqb gs (d ++ [(k, v)]) = Some i.
Proof.
  induction d as [|[k' v'] d IH]; simpl; [discriminate|].
  now destruct (tuple_eqb gs k').
Qed.

End OrderedDictLookups.

Section AdditionInvariants.

Import dataset.

(** The shape of what [add_count_list] leaves: the data set itself, the
    data set with one row replaced by a row of the same place, or the data
    set with one more gate string and one more row. *)
Lemma add_count_list_cases (self : DataSet) (gateString : GateString)
    (countList : list Q) :
  snd (add_count_list gateString countList self) = self
  \/ (exists i counts',
        od_get tuple_eqb gateString (gsIndex self) = Some i
        /\ length counts' = length (counts self)
        /\ snd (add_count_list gateString countList self)
           = mkDataSet (gsIndex self) (slIndex self) counts' (bStatic self))
  \/ (od_get tuple_eqb gateString (gsIndex self) = None
      /\ snd (add_count_list gateString countList self)
         = mkDataSet (gsIndex self ++ [(gateString, length (counts self))])
                     (slIndex self) (counts self ++ [countList]) (bStatic self)).
Proof.
  unfold add_count_list.
  destruct (bStatic self); [now left|].
  destruct (py_round (Qsum countList) =? 0)%Z; [now left|].
  destruct (negb _); [now left|].
  destruct (od_get tuple_eqb gateString (gsIndex self)) as [i|] eqn:Hget.
  - unfold list_get. destruct (nth_error (counts self) i) as [row|] eqn:Hrow;
      [|now left].
    cbn [bind]. destruct (np_iadd row countList) as [row'|e]; [|now left].
    cbn [bind].
    destruct (list_set_ok (counts self) i row') as (counts' & -> & Hlen & _).
    { apply nth_error_Some. congruence. }
    right. left. now exists i, counts'.
  - right. right. split; [reflexivity|].
    cbn [snd]. now rewrite (od_set_new _ _ _ _ Hget).
Qed.

(** X1: whatever it is given and whether it returns or raises,
    [add_count_list] leaves the spam labels and the static flag as they
    were, drops no row, and every gate string that had an index keeps that
    index. *)
Theorem add_count_list_keeps_indices (self : DataSet) (gateString : GateString)
    (countList : list Q) :
  let self' := snd (add_count_list gateString countList self) in
  slIndex self' = slIndex self
  /\ bStatic self' = bStatic self
  /\ length (counts self) <= length (counts self')
  /\ forall gs i, od_get tuple_eqb gs (gsIndex self) = Some i ->
                  od_get tuple_eqb gs (gsIndex self') = Some i.
Proof.
  cbv zeta.
  destruct (add_count_list_cases self gateString countList)
    as [-> | [(i & counts' & _ & Hlen & ->) | (_ & ->)]]; cbn.
  - repeat split; [lia|tauto].
  - repeat split; [lia|tauto].
  - repeat split.
    + rewrite length_app. lia.
    + intros gs i. apply od_get_app_old.
Qed.

(** X2: [add_count_list] keeps a data set in order: the gate strings stay
    distinct, and the one in place [i] has the index [i]. *)
Theorem add_count_list_rows_in_order (self : DataSet) (gateString : GateString)
    (countList : list Q) :
  rows_in_order self ->
  rows_in_order (snd (add_count_list gateString countList self)).
Proof.
  intros [Hnd Hvals].
  destruct (add_count_list_cases self gateString countList)
    as [-> | [(i & counts' & _ & Hlen & ->) | (Hnone & ->)]].
  - now split.
  - split; cbn; [exact Hnd|now rewrite Hlen].
  - split; cbn.
    + unfold od_keys. rewrite map_app. cbn.
      apply NoDup_app; [exact Hnd|repeat constructor; intros []|].
      intros x Hx [<-|[]]. now apply (od_get_None_not_key _ _ Hnone).
    + unfold od_values in *. rewrite map_app, Hvals, length_app. cbn.
      now rewrite seq_app.
Qed.

Lemma add_count_list_rows_in_order_witness :
  rows_in_order (snd (add_count_list ["Gy"%string] [3%Q; 4%Q] Gx_dataset)).
Proof.
  apply add_count_list_rows_in_order.
  split; cbn; [repeat constructor; intros []|reflexivity].
Defined.

(** X3: on a data set in order, [iteritems] goes with indexing: every pair
    [(gateString, row)] it yields has [dataset[gateString] = row]. *)
Theorem iteritems_agrees_with_getitem (self : DataSet) (gateString : GateString)
    (row : list Q) :
  rows_in_order self ->
  In (gateString, row) (iteritems self) ->
  __getitem__ self gateString = Ok row.
Proof.
  intros [Hnd Hvals] Hin. unfold iteritems in Hin.
  apply In_nth_error in Hin as (n & Hn).
  assert (Hk : nth_error (od_keys (gsIndex self)) n = Some gateString
               /\ nth_error (counts self) n = Some row).
  { clear -Hn. revert n Hn. generalize (od_keys (gsIndex self)), (counts self).
    induction l as [|k l IH]; intros [|r l0] n Hn; simpl in Hn;
      try (destruct n; discriminate).
    destruct n as [|n]; simpl in *.
    - injection Hn as -> ->. now split.
    - now apply IH. }
  destruct Hk as [Hkey Hrow].
  assert (Hpair : nth_error (gsIndex self) n = Some (gateString, n)).
  { unfold od_keys, od_values in *.
    rewrite nth_error_map in Hkey.
    destruct (nth_error (gsIndex self) n) as [[k v]|] eqn:E; [|discriminate].
    cbn in Hkey. injection Hkey as ->.
    assert (Hv : nth_error (map snd (gsIndex self)) n = Some v)
      by now rewrite nth_error_map, E.
    rewrite Hvals in Hv.
    assert (n < length (counts self)) by (apply nth_error_Some; congruence).
    rewrite nth_error_nth' with (d := 0) in Hv by now rewrite length_seq.
    rewrite seq_nth in Hv by assumption. cbn in Hv. congruence. }
  unfold __getitem__, getitem.
  rewrite (od_get_nth _ _ _ _ Hnd Hpair). cbn [bind].
  unfold list_get. now rewrite Hrow.
Qed.

Lemma iteritems_agrees_with_getitem_witness :
  __getitem__ Gx_dataset ["Gx"%string] = Ok [10%Q; 0%Q].
Proof.
  apply iteritems_agrees_with_getitem.
  - split; cbn; [repeat constructor; intros []|reflexivity].
  - now left.
Defined.

End AdditionInvariants.

Section GateLabelFacts.

Import dataset.

Lemma existsb_string_eqb (x : string) (l : list string) :
  existsb (String.eqb x) l = true <-> In x l.
Proof.
  rewrite existsb_exists. split.
  - intros (y & Hy & E). apply String.eqb_eq in E. now subst.
  - intros H. exists x. split; [exact H|apply String.eqb_refl].
Qed.

(** The inner loop of [get_gate_labels] adds the labels of one gate string
    that are not yet listed. *)
Lemma gather_labels_spec (gateLabelString : GateString) (gateLabels : list GateLabel) :
  let gateLabels' :=
    fold_left (fun gateLabels gateLabel =>
                 if negb (existsb (String.eqb gateLabel) gateLabels)
                 then gateLabels ++ [gateLabel] else gateLabels)
              gateLabelString gateLabels in
  (NoDup gateLabels -> NoDup gateLabels')
  /\ forall l, In l gateLabels' <-> In l gateLabels \/ In l gateLabelString.
Proof.
  cbv zeta. revert gateLabels.
  induction gateLabelString as [|x gs IH]; intros gateLabels; simpl.
  - split; [tauto|]. intros l. tauto.
  - destruct (existsb (String.eqb x) gateLabels) eqn:E; cbn [negb].
    + apply existsb_string_eqb in E.
      destruct (IH gateLabels) as [Hnd Hin]. split; [exact Hnd|].
      intros l. rewrite Hin. split; [tauto|].
      intros [H|[<-|H]]; tauto.
    + assert (Hx : ~ In x gateLabels).
      { intros H. apply existsb_string_eqb in H. congruence. }
      destruct (IH (gateLabels ++ [x])) as [Hnd Hin]. split.
      * intros H. apply Hnd. apply NoDup_app; [exact H|repeat constructor; intros []|].
        intros y Hy [<-|[]]. contradiction.
      * intros l. rewrite Hin, in_app_iff. cbn. tauto.
Qed.

(** X4: [get_gate_labels] lists every gate label that occurs in a gate
    string of the data set, nothing else, and each label once. *)
Theorem get_gate_labels_spec (self : DataSet) :
  NoDup (get_gate_labels self)
  /\ forall gateLabel,
       In gateLabel (get_gate_labels self)
       <-> exists gateString, In gateString (keys self) /\ In gateLabel gateString.
Proof.
  unfold get_gate_labels.
  assert (H : forall strings gateLabels,
            let result :=
              fold_left
                (fun gateLabels gateLabelString =>
                   fold_left
                     (fun gateLabels gateLabel =>
                        if negb (existsb (String.eqb gateLabel) gateLabels)
                        then gateLabels ++ [gateLabel] else gateLabels)
                     gateLabelString gateLabels)
                strings gateLabels in
            (NoDup gateLabels -> NoDup result)
            /\ forall l, In l result
                         <-> In l gateLabels
                             \/ exists gs, In gs strings /\ In l gs).
  { induction strings as [|gs strings IH]; intros gateLabels; cbv zeta; simpl.
    - split; [tauto|]. intros l. split; [tauto|]. intros [Hl|(gs & [] & _)]. exact Hl.
    - destruct (gather_labels_spec gs gateLabels) as [Hnd1 Hin1].
      destruct (IH (fold_left
                      (fun gateLabels gateLabel =>
                         if negb (existsb (String.eqb gateLabel) gateLabels)
                         then gateLabels ++ [gateLabel] else gateLabels)
                      gs gateLabels)) as [Hnd2 Hin2].
      split; [tauto|].
      intros l. rewrite Hin2, Hin1. split.
      + intros [[Hl|Hl]|(g & Hg & Hl)].
        * now left.
        * right. exists gs. split; [now left|exact Hl].
        * right. exists g. split; [now right|exact Hl].
      + intros [Hl|(g & [<-|Hg] & Hl)].
        * left. now left.
        * left. now right.
        * right. now exists g. }
  destruct (H (keys self) []) as [Hnd Hin]. split.
  - apply Hnd. constructor.
  - intros l. rewrite Hin. split; [intros [[]|Hl]; exact Hl|tauto].
Qed.

End GateLabelFacts.

Section LifecycleFacts.

Import dataset.

(** X5: on a mutable data set whose rows have one count per spam label,
    [done_adding_data] returns and makes the data set static with the same
    indices and rows; a second call changes nothing; and [add_count_list]
    then raises and leaves the data set as it is. *)
Theorem done_adding_data_freezes (self : DataSet) :
  bStatic self = false ->
  (forall row, In row (counts self) -> length row = length (slIndex self)) ->
  let frozen := mkDataSet (gsIndex self) (slIndex self) (counts self) true in
  done_adding_data self = (Ok tt, frozen)
  /\ done_adding_data frozen = (Ok tt, frozen)
  /\ forall gateString countList,
       add_count_list gateString countList frozen = (Raise ValueError, frozen).
Proof.
  intros Hmut Hrows. cbv zeta. split; [|split; reflexivity].
  unfold done_adding_data. rewrite Hmut.
  destruct (counts self) as [|row rows] eqn:E; [reflexivity|].
  assert (Hall : forallb (fun el => length el =? length row) rows = true).
  { apply forallb_forall. intros el Hel. apply Nat.eqb_eq.
    rewrite (Hrows el) by now right. symmetry. apply Hrows. now left. }
  now rewrite Hall.
Qed.

Lemma done_adding_data_freezes_witness :
  done_adding_data Gx_dataset = (Ok tt, Gx_static_dataset)
  /\ done_adding_data Gx_static_dataset = (Ok tt, Gx_static_dataset)
  /\ forall gateString countList,
       add_count_list gateString countList Gx_static_dataset
       = (Raise ValueError, Gx_static_dataset).
Proof.
  apply (done_adding_data_freezes Gx_dataset).
  - reflexivity.
  - intros row [<-|[]]. reflexivity.
Defined.

(** Rows of two lengths cannot be stacked: [done_adding_data] raises and
    the data set stays mutable. *)
Lemma done_adding_data_ragged (self : DataSet) (row row' : list Q) (rows : list (list Q)) :
  bStatic self = false ->
  counts self = row :: rows -> In row' rows -> length row' <> length row ->
  done_adding_data self = (Raise ValueError, self).
Proof.
  intros Hmut Hc Hin Hlen. unfold done_adding_data. rewrite Hmut, Hc.
  destruct (forallb _ rows) eqn:E; [|reflexivity].
  rewrite forallb_forall in E. specialize (E row' Hin).
  apply Nat.eqb_eq in E. contradiction.
Qed.

End LifecycleFacts.

Section TruncateRows.

Import dataset.

Lemma od_get_set (k k' : GateString) (v : nat) (d : OrderedDict GateString nat) :
  od_get tuple_eqb k' (od_set tuple_eqb k v d)
  = if tuple_eqb k' k then Some v else od_get tuple_eqb k' d.
Proof.
  induction d as [|[k0 v0] d IH]; simpl; [reflexivity|].
  destruct (tuple_eqb k k0) eqn:E; simpl.
  - apply tuple_eqb_eq in E. subst k0. now destruct (tuple_eqb k' k).
  - destruct (tuple_eqb k' k0) eqn:E'; [|exact IH].
    apply tuple_eqb_eq in E'. subst k0.
    destruct (tuple_eqb k' k) eqn:E''; [|reflexivity].
    apply tuple_eqb_eq in E''. subst k'. now rewrite tuple_eqb_refl in E.
Qed.

Lemma od_get_key (k : GateString) (d : OrderedDict GateString nat) :
  In k (od_keys d) -> exists v, od_get tuple_eqb k d = Some v.
Proof.
  induction d as [|[k0 v0] d IH]; simpl; [tauto|].
  destruct (tuple_eqb k k0) eqn:E; [now exists v0|].
  intros [<-|Hin]; [now rewrite tuple_eqb_refl in E|now apply IH].
Qed.

(** A dictionary made of pairs taken from another one looks up as it. *)
Lemma od_of_list_get (d : OrderedDict GateString nat) (pairs : list (GateString * nat)) :
  (forall g i, In (g, i) pairs -> od_get tuple_eqb g d = Some i) ->
  forall g i, od_get tuple_eqb g (od_of_list tuple_eqb pairs) = Some i ->
              od_get tuple_eqb g d = Some i.
Proof.
  unfold od_of_list.
  assert (H : forall acc,
            (forall g i, od_get tuple_eqb g acc = Some i -> od_get tuple_eqb g d = Some i) ->
            (forall g i, In (g, i) pairs -> od_get tuple_eqb g d = Some i) ->
            forall g i,
              od_get tuple_eqb g
                (fold_left (fun d kv => od_set tuple_eqb (fst kv) (snd kv) d) pairs acc)
              = Some i ->
              od_get tuple_eqb g d = Some i).
  { induction pairs as [|[k v] pairs IH]; intros acc Hacc Hpairs g i; simpl; [apply Hacc|].
    apply IH.
    - intros g' i'. rewrite od_get_set.
      destruct (tuple_eqb g' k) eqn:E; [|apply Hacc].
      apply tuple_eqb_eq in E. subst g'. intros [= <-]. apply Hpairs. now left.
    - intros g' i' Hin. apply Hpairs. now right. }
  intros Hpairs. apply (H []); [discriminate|exact Hpairs].
Qed.

(** The indices the static loop gathers are the indices of the strings it
    read and found. *)
Lemma truncate_static_loop_lenient (self : DataSet) (toKeep gss : list GateString)
    (idxs : list nat) (gss' : list GateString) (idxs' : list nat) :
  truncate_static_loop self false toKeep gss idxs = Ok (gss', idxs') ->
  Forall2 (fun g i => od_get tuple_eqb g (gsIndex self) = Some i) gss idxs ->
  Forall2 (fun g i => od_get tuple_eqb g (gsIndex self) = Some i) gss' idxs'.
Proof.
  revert gss idxs; induction toKeep as [|gs toKeep IH]; intros gss idxs; simpl.
  - now intros [= <- <-].
  - destruct (od_get tuple_eqb gs (gsIndex self)) as [i|] eqn:E.
    + intros H Hall. apply (IH _ _ H).
      apply Forall2_app; [exact Hall|]. now repeat constructor.
    + apply IH.
Qed.

Lemma truncate_static_loop_strict (self : DataSet) (toKeep gss : list GateString)
    (idxs : list nat) (gss' : list GateString) (idxs' : list nat) :
  truncate_static_loop self true toKeep gss idxs = Ok (gss', idxs') ->
  exists found, idxs' = idxs ++ found
                /\ Forall2 (fun g i => od_get tuple_eqb g (gsIndex self) = Some i)
                           toKeep found.
Proof.
  revert gss idxs; induction toKeep as [|gs toKeep IH]; intros gss idxs; simpl.
  - intros [= <- <-]. exists []. split; [now rewrite app_nil_r|constructor].
  - destruct (od_get tuple_eqb gs (gsIndex self)) as [i|] eqn:E; [|discriminate].
    intros H. destruct (IH _ _ H) as (found & -> & Hall).
    exists (i :: found). split; [now rewrite <- app_assoc|].
    now constructor.
Qed.

Lemma Forall2_combine_In {A B : Type} (R : A -> B -> Prop) (l : list A) (l' : list B) :
  Forall2 R l l' -> forall a b, In (a, b) (combine l l') -> R a b.
Proof.
  induction 1 as [|x y l l' Hxy _ IH]; simpl; [tauto|].
  intros a b [[= <- <-]|Hin]; [exact Hxy|now apply IH].
Qed.

(** Distinctness of what [remove_duplicates] returns. *)
Lemma remove_duplicates_acc_NoDup (l seen : list GateString) :
  NoDup (remove_duplicates_acc tuple_eqb l seen)
  /\ forall x, In x (remove_duplicates_acc tuple_eqb l seen) -> ~ In x seen.
Proof.
  revert seen; induction l as [|y l IH]; intros seen; simpl.
  - split; [constructor|tauto].
  - destruct (existsb (tuple_eqb y) seen) eqn:E; [apply IH|].
    assert (Hy : ~ In y seen).
    { intros H. apply existsb_tuple_eqb in H. congruence. }
    destruct (IH (y :: seen)) as [Hnd Hdis]. split.
    + constructor; [|exact Hnd]. intros H. apply (Hdis y H). now left.
    + intros x [<-|Hx]; [exact Hy|].
      intros Hs. apply (Hdis x Hx). now right.
Qed.

Lemma truncate_mutable_loop_rows (self : DataSet) (bThrow : bool)
    (toKeep : list GateString) (t t' : DataSet) :
  NoDup toKeep ->
  (forall g, In g toKeep -> od_get tuple_eqb g (gsIndex t) = None) ->
  rows_copied self t ->
  truncate_mutable_loop self bThrow toKeep t = (Ok tt, t') ->
  rows_copied self t'.
Proof.
  revert t; induction toKeep as [|gs toKeep IH]; intros t Hnd Hnew Hinv; simpl.
  - now intros [= <-].
  - inversion Hnd as [|? ? Hnotin Hnd']; subst.
    destruct (od_get tuple_eqb gs (gsIndex self)) as [j|] eqn:Hj.
    + unfold bindM, lift.
      destruct (list_get (counts self) j) as [row|e] eqn:Hrow; [|discriminate].
      destruct (add_count_list gs row t) as [[[]|e] t1] eqn:Hadd; [|discriminate].
      apply IH; [exact Hnd'| |].
      * intros g Hg.
        pose proof (add_count_list_cases t gs row) as Hcases.
        rewrite Hadd in Hcases. cbn [snd] in Hcases.
        destruct Hcases as [-> | [(i & c' & Hsome & _) | (_ & ->)]].
        -- apply Hnew. now right.
        -- rewrite Hnew in Hsome by now left. discriminate.
        -- cbn. 
           assert (Hg' : od_get tuple_eqb g (gsIndex t) = None) by (apply Hnew; now right).
           clear -Hg' Hg Hnotin. induction (gsIndex t) as [|[k v] d IHd]; simpl in *.
           ++ destruct (tuple_eqb g gs) eqn:E; [|reflexivity].
              apply tuple_eqb_eq in E. subst. contradiction.
           ++ destruct (tuple_eqb g k); [discriminate|now apply IHd].
      * pose proof (add_count_list_cases t gs row) as Hcases.
        rewrite Hadd in Hcases. cbn [snd] in Hcases.
        destruct Hcases as [-> | [(i & c' & Hsome & _) | (Hnone & ->)]].
        -- exact Hinv.
        -- rewrite Hnew in Hsome by now left. discriminate.
        -- intros g i Hg. cbn in Hg |- *.
           assert (Hcases : od_get tuple_eqb g (gsIndex t) = Some i
                            \/ (g = gs /\ i = length (counts t))).
           { clear -Hg. induction (gsIndex t) as [|[k v] d IHd]; simpl in *.
             - destruct (tuple_eqb g gs) eqn:E; [|discriminate].
               apply tuple_eqb_eq in E. right. split; congruence.
             - destruct (tuple_eqb g k); [now left|now apply IHd]. }
           destruct Hcases as [Hold|[-> ->]].
           ++ destruct (Hinv g i Hold) as (r & Hr & Hself).
              exists r. split; [|exact Hself].
              rewrite nth_error_app1; [exact Hr|]. apply nth_error_Some. congruence.
           ++ exists row. split.
              ** now rewrite nth_error_app2, Nat.sub_diag by lia.
              ** unfold __getitem__, getitem. rewrite Hj. cbn [bind]. exact Hrow.
    + destruct bThrow; [discriminate|].
      apply IH; [exact Hnd'| |exact Hinv].
      intros g Hg. apply Hnew. now right.
Qed.

(** X6: the data set [truncate] returns has, for each of its gate strings,
    the row the string has in the data set it was taken from. *)
Theorem truncate_keeps_rows (self : DataSet) (listOfGateStringsToKeep : list GateString)
    (bThrowErrorIfStringIsMissing : bool) (trunc_dataset : DataSet)
    (gateString : GateString) :
  fst (truncate listOfGateStringsToKeep bThrowErrorIfStringIsMissing self)
  = Ok trunc_dataset ->
  In gateString (keys trunc_dataset) ->
  __getitem__ trunc_dataset gateString = __getitem__ self gateString.
Proof.
  unfold truncate. destruct (bStatic self) eqn:Hstatic; cbn [fst].
  - destruct (truncate_static_loop self bThrowErrorIfStringIsMissing
                listOfGateStringsToKeep [] []) as [[gss idxs]|e] eqn:Eloop;
      [|discriminate].
    cbn [bind fst snd]. unfold __init__. cbn [bind].
    destruct (match od_values _ with [] => true | _ :: _ => _ end); [|discriminate].
    intros [= <-] Hkey. unfold keys in Hkey. cbn in Hkey.
    destruct (od_get_key _ _ Hkey) as (i & Hi).
    unfold __getitem__, getitem. cbn [gsIndex counts]. rewrite Hi.
    assert (Hself : od_get tuple_eqb gateString (gsIndex self) = Some i).
    { revert Hi. apply od_of_list_get. intros g j.
      apply (Forall2_combine_In
               (fun g i => od_get tuple_eqb g (gsIndex self) = Some i)).
      destruct bThrowErrorIfStringIsMissing.
      - destruct (truncate_static_loop_strict _ _ _ _ _ _ Eloop) as (found & E & Hall).
        cbn in E. now subst.
      - apply (truncate_static_loop_lenient _ _ _ _ _ _ Eloop). constructor. }
    now rewrite Hself.
  - cbn [__init__ bind negb].
    destruct (truncate_mutable_loop _ _ _ _) as [[[]|e] t'] eqn:Eloop; [|discriminate].
    intros [= <-] Hkey. unfold keys in Hkey.
    destruct (od_get_key _ _ Hkey) as (i & Hi).
    assert (Hinv : rows_copied self t').
    { refine (truncate_mutable_loop_rows _ _ _ _ _ _ _ _ Eloop).
      - apply remove_duplicates_acc_NoDup.
      - reflexivity.
      - discriminate. }
    destruct (Hinv _ _ Hi) as (row & Hrow & Hself).
    rewrite Hself. unfold __getitem__, getitem. rewrite Hi. cbn [bind].
    unfold list_get. now rewrite Hrow.
Qed.

Lemma truncate_keeps_rows_witness :
  exists trunc_dataset,
    fst (truncate [["Gx"%string]; ["Gy"%string]; ["Gx"%string]] false Gx_dataset)
    = Ok trunc_dataset
    /\ __getitem__ trunc_dataset ["Gx"%string] = __getitem__ Gx_dataset ["Gx"%string].
Proof.
  eexists. split; [reflexivity|].
  apply (truncate_keeps_rows Gx_dataset
           [["Gx"%string]; ["Gy"%string]; ["Gx"%string]] false).
  - reflexivity.
  - now left.
Defined.

End TruncateRows.

Section SpamLabelFacts.

Import dataset.

Lemma sl_get_None (l : SpamLabel) {V : Type} (d : OrderedDict SpamLabel V) :
  od_get String.eqb l d = None <-> ~ In l (od_keys d).
Proof.
  induction d as [|[k v] d IH]; simpl; [tauto|].
  destruct (String.eqb_spec l k) as [->|Hne].
  - split; [discriminate|]. intros H. exfalso. apply H. now left.
  - rewrite IH. split; [intros H [E|Hin]; [congruence|tauto]|tauto].
Qed.

Lemma sl_get_app {V : Type} (l : SpamLabel) (d d' : OrderedDict SpamLabel V) :
  od_get String.eqb l (d ++ d')
  = match od_get String.eqb l d with
    | Some v => Some v
    | None => od_get String.eqb l d'
    end.
Proof.
  induction d as [|[k v] d IH]; simpl; [reflexivity|].
  now destruct (String.eqb l k).
Qed.

(** Pairs with distinct keys make the dictionary that lists them. *)
Lemma od_of_list_distinct {V : Type} (pairs : list (SpamLabel * V)) :
  NoDup (map fst pairs) -> od_of_list String.eqb pairs = pairs.
Proof.
  unfold od_of_list.
  assert (H : forall acc, NoDup (map fst (acc ++ pairs)) ->
                          fold_left (fun d kv => od_set String.eqb (fst kv) (snd kv) d)
                                    pairs acc
                          = acc ++ pairs).
  { induction pairs as [|[k v] pairs IH]; intros acc Hnd; simpl.
    - now rewrite app_nil_r.
    - rewrite od_set_new.
      + rewrite IH; [now rewrite <- app_assoc|].
        now rewrite <- app_assoc.
      + apply sl_get_None. rewrite map_app in Hnd. simpl in Hnd.
        apply NoDup_remove_2 in Hnd. intros Hin. apply Hnd.
        apply in_or_app. now left. }
  intros Hnd. now apply (H []).
Qed.

Lemma enumerate_keys {A : Type} (l : list A) : map fst (enumerate l) = l.
Proof.
  unfold enumerate. generalize 0.
  induction l as [|x l IH]; intros a; simpl; [reflexivity|]. now rewrite IH.
Qed.

(** X7: a mutable data set made from a list of distinct spam labels is
    equal to its copy, whatever was added to it; and a static data set is
    its own copy. *)
Theorem copy_returns_equal_dataset (self : DataSet) (spamLabels : list SpamLabel) :
  NoDup spamLabels ->
  slIndex self = od_of_list String.eqb (enumerate spamLabels) ->
  copy self = Ok self.
Proof.
  intros Hnd Hsl. unfold copy. destruct (bStatic self) eqn:Hstatic; [reflexivity|].
  cbn [__init__ bind negb]. unfold get_spam_labels, od_keys. cbn [slIndex bStatic].
  assert (E : od_of_list String.eqb (enumerate (map fst (slIndex self))) = slIndex self).
  { rewrite Hsl at 1.
    rewrite (od_of_list_distinct (enumerate spamLabels)) by now rewrite enumerate_keys.
    now rewrite enumerate_keys. }
  rewrite E, <- Hstatic. now destruct self.
Qed.

Lemma copy_returns_equal_dataset_witness : copy Gx_dataset = Ok Gx_dataset.
Proof.
  apply (copy_returns_equal_dataset Gx_dataset ["plus"; "minus"]%string).
  - repeat constructor; cbn; intuition discriminate.
  - reflexivity.
Defined.

End SpamLabelFacts.

Section CountDictFacts.

Import dataset.

Lemma enumerate_length {A : Type} (l : list A) : length (enumerate l) = length l.
Proof. unfold enumerate. rewrite length_combine, length_seq. lia. Qed.

(** The index of a label among distinct labels, and the slot it names. *)
Lemma enumerate_get_set {B : Type} (labels : list string) (l : string)
    (f : string -> B) (v : B) (a : nat) :
  NoDup labels -> In l labels ->
  exists j,
    od_get String.eqb l (combine labels (seq a (length labels))) = Some (a + j)
    /\ list_set (map f labels) j v
       = Ok (map (fun l' => if String.eqb l' l then v else f l') labels).
Proof.
  revert a; induction labels as [|x t IH]; intros a Hnd Hin; [destruct Hin|].
  inversion Hnd as [|? ? Hx Hnd']; subst. simpl.
  destruct (String.eqb_spec l x) as [->|Hne].
  - exists 0. split; [now rewrite Nat.add_0_r|].
    cbn. rewrite String.eqb_refl. do 2 f_equal.
    apply map_ext_in. intros l' Hl'.
    destruct (String.eqb_spec l' x) as [->|_]; [contradiction|reflexivity].
  - destruct Hin as [->|Hin]; [congruence|].
    destruct (IH (S a) Hnd' Hin) as (j & Hget & Hset).
    exists (S j). split; [now rewrite Hget, Nat.add_succ_r|].
    cbn. rewrite Hset. cbn.
    destruct (String.eqb_spec x l) as [->|_]; [congruence|reflexivity].
Qed.

(** The loop of [add_count_dict] on a data set made from distinct spam
    labels: the slots hold what the dictionary has for each label, or the
    loop raises on a key that is no spam label. *)
Lemma fill_countList_spec (self : DataSet) (spamLabels : list SpamLabel) :
  NoDup spamLabels ->
  slIndex self = enumerate spamLabels ->
  forall (items seen : OrderedDict SpamLabel Q),
    NoDup (od_keys (seen ++ items)) ->
    fill_countList self items (map (fun l => od_get String.eqb l seen) spamLabels)
    = if forallb (fun kv => existsb (String.eqb (fst kv)) spamLabels) items
      then Ok (map (fun l => od_get String.eqb l (seen ++ items)) spamLabels)
      else Raise ValueError.
Proof.
  intros Hnd Hsl.
  assert (Hlabels : get_spam_labels self = spamLabels).
  { unfold get_spam_labels, od_keys. now rewrite Hsl, enumerate_keys. }
  induction items as [|[l c] items IH]; intros seen Hkeys; simpl.
  - now rewrite app_nil_r.
  - rewrite Hlabels.
    destruct (existsb (String.eqb l) spamLabels) eqn:Hl; cbn [negb andb];
      [|reflexivity].
    apply existsb_string_eqb in Hl.
    destruct (enumerate_get_set spamLabels l
                (fun l' => od_get String.eqb l' seen) (Some c) 0 Hnd Hl)
      as (j & Hget & Hset).
    unfold SpamLabel in *.
    unfold getitem. rewrite Hsl. unfold enumerate. rewrite Hget. cbn [bind Nat.add].
    rewrite Hset. cbn [bind].
    assert (Hl_new : od_get String.eqb l seen = None).
    { apply sl_get_None. unfold od_keys in *. rewrite map_app in Hkeys.
      simpl in Hkeys. apply NoDup_remove_2 in Hkeys.
      intros Hin. apply Hkeys. apply in_or_app. now left. }
    replace (map (fun l' => if String.eqb l' l then Some c
                            else od_get String.eqb l' seen) spamLabels)
      with (map (fun l' => od_get String.eqb l' (seen ++ [(l, c)])) spamLabels).
    + rewrite IH by now rewrite <- app_assoc. now rewrite <- app_assoc.
    + apply map_ext. intros l'. rewrite sl_get_app. simpl.
      destruct (String.eqb_spec l' l) as [->|_].
      * now rewrite Hl_new.
      * now destruct (od_get String.eqb l' seen).
Qed.

(** X8: on a mutable data set made from distinct spam labels,
    [add_count_dict] with a dictionary that has exactly the spam labels as
    keys is [add_count_list] with the counts put in the order of the
    labels, whatever the order of the dictionary; and with a key that is no
    spam label, or without a key for some spam label, it raises and leaves
    the data set as it is. *)
Theorem add_count_dict_spec (self : DataSet) (spamLabels : list SpamLabel)
    (gateString : GateString) (countDict : OrderedDict SpamLabel Q) :
  bStatic self = false ->
  NoDup spamLabels ->
  slIndex self = od_of_list String.eqb (enumerate spamLabels) ->
  NoDup (od_keys countDict) ->
  ((forall l, In l (od_keys countDict) <-> In l spamLabels) ->
   add_count_dict gateString countDict self
   = add_count_list gateString
       (map (fun l => count_of (od_get String.eqb l countDict)) spamLabels) self)
  /\ ((exists l, In l (od_keys countDict) /\ ~ In l spamLabels)
      \/ (exists l, In l spamLabels /\ ~ In l (od_keys countDict)) ->
      add_count_dict gateString countDict self = (Raise ValueError, self)).
Proof.
  intros Hmut Hnd Hsl Hkeys.
  rewrite od_of_list_distinct in Hsl by now rewrite enumerate_keys.
  assert (Hfill := fill_countList_spec self spamLabels Hnd Hsl countDict [] Hkeys).
  cbn [app] in Hfill.
  match type of Hfill with
  | fill_countList _ _ ?slots = _ =>
      assert (Hinit : repeat (@None Q) (length (slIndex self)) = slots)
  end.
  { rewrite Hsl, enumerate_length. clear.
    induction spamLabels as [|x t IH]; simpl; [reflexivity|now rewrite IH]. }
  unfold add_count_dict. rewrite Hmut, Hinit, Hfill.
  assert (Hall : forallb (fun kv => existsb (String.eqb (fst kv)) spamLabels) countDict
                 = true
                 <-> forall l, In l (od_keys countDict) -> In l spamLabels).
  { rewrite forallb_forall. unfold od_keys. split.
    - intros H l Hl. apply in_map_iff in Hl as ([k v] & <- & Hkv).
      now apply existsb_string_eqb, (H (k, v)).
    - intros H [k v] Hkv. apply existsb_string_eqb, H.
      now apply (in_map fst) in Hkv. }
  assert (Hnan : existsb is_nan (map (fun l => od_get String.eqb l countDict) spamLabels)
                 = false
                 <-> forall l, In l spamLabels -> In l (od_keys countDict)).
  { split.
    - intros H l Hl.
      destruct (od_get String.eqb l countDict) as [c|] eqn:E.
      + destruct (in_dec string_dec l (od_keys countDict)) as [Hin|Hout];
          [exact Hin|].
        apply sl_get_None in Hout. congruence.
      + exfalso. assert (Htrue : existsb is_nan
                                   (map (fun l => od_get String.eqb l countDict) spamLabels)
                                 = true).
        { apply existsb_exists. exists None. split; [|reflexivity].
          apply in_map_iff. now exists l. }
        congruence.
    - intros H. destruct (existsb _ _) eqn:E; [|reflexivity].
      apply existsb_exists in E as ([c|] & Hin & Hc); [discriminate|].
      apply in_map_iff in Hin as (l & Hl & Hin).
      apply sl_get_None in Hl. exfalso. apply Hl, H, Hin. }
  split.
  - intros Hsame.
    rewrite (proj2 Hall (fun l => proj1 (Hsame l))).
    rewrite (proj2 Hnan (fun l => proj2 (Hsame l))).
    now rewrite map_map.
  - intros Hbad.
    match goal with
    | |- context [forallb ?f countDict] => destruct (forallb f countDict) eqn:E1
    end; [|reflexivity].
    match goal with
    | |- context [existsb is_nan ?slots] => destruct (existsb is_nan slots) eqn:E2
    end; [reflexivity|].
    exfalso. destruct Hbad as [(l & Hl & Hout) | (l & Hl & Hout)]; apply Hout.
    + now apply (proj1 Hall eq_refl).
    + now apply (proj1 Hnan eq_refl).
Qed.

(** The two orders of the dictionary [{"plus":5,"minus":5}]. *)
Lemma add_count_dict_spec_witness :
  add_count_dict ["Gx"%string] [("minus"%string, 5%Q); ("plus"%string, 5%Q)] Gx_dataset
  = add_count_list ["Gx"%string] [5%Q; 5%Q] Gx_dataset
  /\ add_count_dict ["Gx"%string] [("plus"%string, 5%Q)] Gx_dataset
     = (Raise ValueError, Gx_dataset).
Proof.
  assert (Hnd : NoDup ["plus"; "minus"]%string)
    by (repeat constructor; cbn; intuition discriminate).
  split.
  - apply (proj1 (add_count_dict_spec Gx_dataset ["plus"; "minus"]%string
                    ["Gx"%string] [("minus"%string, 5%Q); ("plus"%string, 5%Q)]
                    eq_refl Hnd eq_refl
                    ltac:(repeat constructor; cbn; intuition discriminate))).
    intros l. cbn. tauto.
  - apply (proj2 (add_count_dict_spec Gx_dataset ["plus"; "minus"]%string
                    ["Gx"%string] [("plus"%string, 5%Q)]
                    eq_refl Hnd eq_refl
                    ltac:(repeat constructor; cbn; intuition discriminate))).
    right. exists "minus"%string. split; [cbn; tauto|].
    cbn. intros [H|[]]. discriminate H.
Defined.

End CountDictFacts.

(** ** Further properties of the compression *)

Section PeriodFacts.

Import dataset.

(** X9: for a period of at least one label, [_getNumPeriods] is the number
    of whole windows at the start of the string that repeat the first one:
    they fit in the string, each equals the first, and the next window, if
    the string has a first one at all, does not. *)
Theorem getNumPeriods_counts_repetitions (gateString : GateString) (periodLen : nat) :
  1 <= periodLen ->
  let n := _getNumPeriods gateString periodLen in
  n * periodLen <= length gateString
  /\ (forall j, j < n ->
        slice gateString (j * periodLen) ((j + 1) * periodLen)
        = slice gateString 0 periodLen)
  /\ (periodLen <= length gateString ->
      slice gateString (n * periodLen) ((n + 1) * periodLen)
      <> slice gateString 0 periodLen)
  /\ (length gateString < periodLen -> n = 0).
Proof.
  intros Hp. cbv zeta.
  assert (Hsound := getNumPeriods_sound gateString periodLen).
  split; [|split; [exact Hsound|split]].
  - destruct (_getNumPeriods gateString periodLen) as [|m] eqn:En; [lia|].
    assert (Hfit : periodLen <= length gateString).
    { unfold _getNumPeriods in En.
      destruct (Nat.ltb_spec (length gateString) periodLen); [discriminate|lia]. }
    specialize (Hsound m ltac:(lia)).
    apply (f_equal (@length _)) in Hsound. unfold slice in Hsound.
    rewrite !length_firstn, !length_skipn in Hsound. lia.
  - intros Hfit E. now apply (getNumPeriods_stops gateString periodLen (conj Hp Hfit)).
  - intros Hshort. unfold _getNumPeriods.
    destruct (Nat.ltb_spec (length gateString) periodLen); [reflexivity|lia].
Qed.

Lemma getNumPeriods_counts_repetitions_witness :
  _getNumPeriods ["a"; "b"; "a"; "b"; "a"]%string 2 * 2 <= 5
  /\ _getNumPeriods ["a"; "b"; "a"; "b"; "a"]%string 2 = 2.
Proof.
  destruct (getNumPeriods_counts_repetitions ["a"; "b"; "a"; "b"; "a"]%string 2
              ltac:(lia)) as (Hfit & _).
  split; [exact Hfit|reflexivity].
Defined.

(** X10: a string that is not empty and is long enough to be compressed is
    refused when there is no period to look for: with
    [maxPeriodToLookFor = 0] the assertion fails, with a negative one numpy
    raises a [ValueError]; and the empty string, when it is compressed, is
    the marker alone whatever the period. *)
Theorem compress_rejects_nonpositive_maxPeriod (np_sqrt : nat -> Q)
    (gateString : GateString) (minLenToCompress maxPeriodToLookFor : Z) :
  (minLenToCompress <= Z.of_nat (length gateString))%Z ->
  (gateString <> [] -> maxPeriodToLookFor = 0%Z ->
   compress_gate_label_tuple np_sqrt gateString minLenToCompress maxPeriodToLookFor
   = Raise AssertionError)
  /\ (gateString <> [] -> (maxPeriodToLookFor < 0)%Z ->
      compress_gate_label_tuple np_sqrt gateString minLenToCompress maxPeriodToLookFor
      = Raise ValueError)
  /\ (gateString = [] ->
      compress_gate_label_tuple np_sqrt gateString minLenToCompress maxPeriodToLookFor
      = Ok [Label CCC]).
Proof.
  intros Hlen. unfold compress_gate_label_tuple.
  destruct (Z.ltb_spec (Z.of_nat (length gateString)) minLenToCompress); [lia|].
  split; [|split].
  - intros Hs ->. destruct gateString as [|x s]; [congruence|]. reflexivity.
  - intros Hs Hneg. destruct gateString as [|x s]; [congruence|].
    cbn [length compress_loop]. cbn [Nat.ltb Nat.leb].
    unfold compress_step, score.
    replace (Z.to_nat (maxPeriodToLookFor + 1)) with 0 by lia.
    reflexivity.
  - intros ->. reflexivity.
Qed.

Lemma compress_rejects_nonpositive_maxPeriod_witness :
  compress_gate_label_tuple sqrt8 ["a"; "a"]%string 0 0 = Raise AssertionError
  /\ compress_gate_label_tuple sqrt8 ["a"; "a"]%string 0 (-3) = Raise ValueError.
Proof.
  destruct (compress_rejects_nonpositive_maxPeriod sqrt8 ["a"; "a"]%string 0 0
              ltac:(cbn; lia)) as (H0 & _ & _).
  destruct (compress_rejects_nonpositive_maxPeriod sqrt8 ["a"; "a"]%string 0 (-3)
              ltac:(cbn; lia)) as (_ & Hneg & _).
  split; [apply H0|apply Hneg]; (discriminate || reflexivity).
Defined.

End PeriodFacts.

Section CompressedForm.

Import dataset.

Variable np_sqrt : nat -> Q.
Hypothesis np_sqrt_1_pos : (0 < np_sqrt 1)%Q.

Lemma is_single_Run (period : GateString) (n : nat) :
  is_single (Run period n) = true <-> n = 1.
Proof.
  destruct n as [|[|n]]; cbn; split; intros H; try discriminate; try lia; reflexivity.
Qed.

Lemma runs_well_formed_no_label (runs : list item) (l : GateLabel) :
  ~ runs_well_formed (runs ++ [Label l]).
Proof.
  induction runs as [|[l'|period n] runs IH]; simpl; tauto.
Qed.

(** A run may be added after well-formed runs, unless it and the last one
    both do not repeat. *)
Lemma runs_well_formed_snoc (runs : list item) (period : GateString) (n : nat) :
  runs_well_formed runs -> period <> [] -> 1 <= n ->
  (n = 1 -> is_single (last runs (Label CCC)) = false) ->
  runs_well_formed (runs ++ [Run period n]).
Proof.
  intros Hwf Hp Hn. induction runs as [|[l|q m] runs IH]; intros Hlast.
  - cbn. tauto.
  - destruct Hwf.
  - destruct Hwf as (Hq & Hm & Hnext & Hrest).
    cbn [app runs_well_formed]. split; [exact Hq|]. split; [exact Hm|].
    destruct runs as [|it runs].
    + cbn [app runs_well_formed]. split; [|cbn; tauto].
      intros ->. destruct (Nat.eq_dec n 1) as [E|E].
      * specialize (Hlast E). cbn in Hlast. discriminate.
      * destruct n as [|[|n]]; cbn; congruence.
    + split; [exact Hnext|]. apply IH; [exact Hrest|exact Hlast].
Qed.

(** The last run of well-formed runs may get a longer period. *)
Lemma runs_well_formed_extend (runs : list item) (period period' : GateString) (n : nat) :
  runs_well_formed (runs ++ [Run period n]) -> period' <> [] ->
  runs_well_formed (runs ++ [Run period' n]).
Proof.
  intros Hwf Hp. induction runs as [|[l|q m] runs IH].
  - cbn in *. tauto.
  - destruct Hwf.
  - cbn [app runs_well_formed] in *. destruct Hwf as (Hq & Hm & Hnext & Hrest).
    repeat split; [exact Hq|exact Hm| |now apply IH].
    destruct runs as [|it runs]; [|exact Hnext].
    cbn in *. intros E. specialize (Hnext E).
    destruct n as [|[|n]]; cbn in *; congruence.
Qed.

(** One turn of the loop keeps the runs well formed. *)
Lemma compress_step_form (gs : GateString) (mp : Z) (start : nat) (runs : list item) :
  start < length gs -> (1 <= mp)%Z ->
  (start = 0 -> runs = []) ->
  runs_well_formed runs ->
  exists start' runs',
    compress_step np_sqrt gs mp start (Label CCC :: runs)
    = Ok (start', Label CCC :: runs')
    /\ start < start'
    /\ runs_well_formed runs'.
Proof.
  intros Hstart Hmp Hfirst Hwf. unfold compress_step.
  assert (Hrest : skipn start gs <> []).
  { intros E. apply (f_equal (@length _)) in E.
    rewrite length_skipn in E. simpl in E. lia. }
  destruct (best_period_positive np_sqrt np_sqrt_1_pos (skipn start gs) mp Hrest Hmp)
    as (b & -> & Hb & Hn & _).
  cbn [bind]. set (n := nth b (numperiods (skipn start gs) mp) 0) in *.
  destruct (Nat.ltb_spec 0 n) as [_|]; [|lia].
  destruct (Nat.ltb_spec 0 b) as [_|]; [|lia].
  cbn [andb negb].
  assert (Hperiod : slice gs start (start + b) <> []).
  { unfold slice. replace (start + b - start) with b by lia.
    destruct (skipn start gs) as [|x rest]; [congruence|].
    destruct b; [lia|discriminate]. }
  assert (Hadv : start < start + b * n) by nia.
  destruct (Nat.ltb_spec 0 start) as [Hpos|Hzero]; cbn [andb].
  - destruct (Nat.eqb_spec n 1) as [Hn1|Hn1].
    + destruct (last_or_nil runs) as [->|(runs0 & [l|period m] & ->)].
      * cbn. exists (start + b * n), [Run (slice gs start (start + b)) n].
        split; [reflexivity|]. split; [exact Hadv|]. cbn. tauto.
      * exfalso. now apply (runs_well_formed_no_label runs0 l).
      * rewrite app_comm_cons, last_last. cbn [second_is_one bind].
        destruct (Nat.eqb_spec m 1) as [->|Hm].
        -- rewrite removelast_last. cbn [bind].
           exists (start + b * n), (runs0 ++ [Run (period ++ slice gs start (start + b)) 1]).
           split; [reflexivity|]. split; [exact Hadv|].
           apply (runs_well_formed_extend runs0 period); [exact Hwf|].
           intros E. apply app_eq_nil in E as [_ E]. contradiction.
        -- cbn [bind].
           exists (start + b * n),
                  ((runs0 ++ [Run period m]) ++ [Run (slice gs start (start + b)) n]).
           split; [reflexivity|]. split; [exact Hadv|].
           apply runs_well_formed_snoc; [exact Hwf|exact Hperiod|lia|].
           intros _. rewrite last_last.
           destruct (is_single (Run period m)) eqn:E; [|reflexivity].
           apply is_single_Run in E. contradiction.
    + cbn [bind].
      exists (start + b * n), (runs ++ [Run (slice gs start (start + b)) n]).
      split; [reflexivity|]. split; [exact Hadv|].
      apply runs_well_formed_snoc; [exact Hwf|exact Hperiod|lia|].
      intros E. contradiction.
  - cbn [bind]. rewrite (Hfirst ltac:(lia)).
    exists (start + b * n), [Run (slice gs start (start + b)) n].
    split; [reflexivity|]. split; [exact Hadv|]. cbn. tauto.
Qed.

Lemma compress_loop_form (gs : GateString) (mp : Z) :
  (1 <= mp)%Z ->
  forall (fuel start : nat) (runs : list item),
    length gs - start <= fuel ->
    (start = 0 -> runs = []) ->
    runs_well_formed runs ->
    exists runs',
      compress_loop np_sqrt fuel gs mp start (Label CCC :: runs)
      = Ok (Label CCC :: runs')
      /\ runs_well_formed runs'.
Proof.
  intros Hmp. induction fuel as [|fuel IH]; intros start runs Hfuel Hfirst Hwf.
  - simpl. destruct (Nat.ltb_spec start (length gs)); [lia|]. now exists runs.
  - cbn [compress_loop]. destruct (Nat.ltb_spec start (length gs)) as [Hlt|Hge].
    + destruct (compress_step_form gs mp start runs Hlt Hmp Hfirst Hwf)
        as (start' & runs1 & -> & Hadv & Hwf').
      cbn [bind fst snd]. apply IH; [lia|lia|exact Hwf'].
    + now exists runs.
Qed.

(** X11: a string that is compressed (with a period to look for of at least
    one label) becomes the marker ["CCC"] followed by runs in normal form:
    each has a period of at least one label repeated at least once, and no
    two runs in a row are both unrepeated, the second is merged into the
    first. *)
Theorem compress_gives_well_formed_runs (gateString : GateString)
    (minLenToCompress maxPeriodToLookFor : Z) :
  (minLenToCompress <= Z.of_nat (length gateString))%Z ->
  (1 <= maxPeriodToLookFor)%Z ->
  exists runs,
    compress_gate_label_tuple np_sqrt gateString minLenToCompress maxPeriodToLookFor
    = Ok (Label CCC :: runs)
    /\ runs_well_formed runs.
Proof.
  intros Hlen Hmp. unfold compress_gate_label_tuple.
  destruct (Z.ltb_spec (Z.of_nat (length gateString)) minLenToCompress); [lia|].
  apply compress_loop_form; [exact Hmp|lia|reflexivity|exact I].
Qed.

End CompressedForm.

(** Three unrepeated labels before a repeated one make a single run. *)
Lemma compress_gives_well_formed_runs_witness :
  exists runs,
    dataset.compress_gate_label_tuple dataset.sqrt8
      ["a"; "b"; "c"; "d"; "e"; "e"; "e"; "e"]%string 1 1
    = Ok (dataset.Label dataset.CCC :: runs)
    /\ dataset.runs_well_formed runs.
Proof.
  apply compress_gives_well_formed_runs.
  - reflexivity.
  - cbn. lia.
  - lia.
Defined.

(** ** Further properties of the search *)

Section CombinationFacts.

Import fiducialpairreduction.

Lemma combinations_nil_length {A : Type} (pool : list A) (r : nat) :
  length pool < r -> combinations pool r = [].
Proof.
  revert r; induction pool as [|x pool IH]; intros [|r] H; simpl in *; try lia;
    [reflexivity|].
  now rewrite (IH r), (IH (S r)) by lia.
Qed.

(** The number of combinations, times the factorials of [_nCr]. *)
Lemma combinations_count_fact {A : Type} (pool : list A) (r : nat) :
  r <= length pool ->
  length (combinations pool r) * fact r * fact (length pool - r) = fact (length pool).
Proof.
  revert r; induction pool as [|x pool IH]; intros r Hr.
  - simpl in Hr. replace r with 0 by lia. reflexivity.
  - destruct r as [|r]; [simpl; lia|].
    simpl in Hr. cbn [combinations length].
    rewrite length_app, length_map.
    replace (S (length pool) - S r) with (length pool - r) by lia.
    pose proof (IH r ltac:(lia)) as HA.
    destruct (Nat.eq_dec r (length pool)) as [->|Hlt].
    + rewrite (combinations_nil_length pool (S (length pool))) by lia.
      rewrite Nat.sub_diag in *. cbn [length fact] in *. nia.
    + pose proof (IH (S r) ltac:(lia)) as HB.
      replace (length pool - r) with (S (length pool - S r)) in * by lia.
      set (A0 := length (combinations pool r)) in *.
      set (B0 := length (combinations pool (S r))) in *.
      set (m := length pool - S r) in *.
      assert (Hn : length pool = r + S m) by lia.
      cbn [fact] in *.
      set (fr := fact r) in *. set (fm := fact m) in *.
      set (fn := fact (length pool)) in *.
      nia.
Qed.

(** A combination of [r] items is a list of [r] items of the pool. *)
Lemma combinations_members {A : Type} (pool : list A) (r : nat) (c : list A) :
  In c (combinations pool r) -> length c = r /\ incl c pool.
Proof.
  revert r c. induction pool as [|x pool IH]; intros [|r] c Hc; simpl in Hc.
  - destruct Hc as [<-|[]]. split; [reflexivity|intros y []].
  - destruct Hc.
  - destruct Hc as [<-|[]]. split; [reflexivity|intros y []].
  - apply in_app_or in Hc as [Hc|Hc].
    + apply in_map_iff in Hc as (c' & <- & Hc').
      destruct (IH r c' Hc') as [Hlen Hincl]. split; [simpl; now rewrite Hlen|].
      intros y [<-|Hy]; [now left|right; now apply Hincl].
    + destruct (IH (S r) c Hc) as [Hlen Hincl]. split; [exact Hlen|].
      intros y Hy. right. now apply Hincl.
Qed.

Lemma combinations_length {A : Type} (pool : list A) (r : nat) :
  r <= length pool -> length (combinations pool r) = _nCr (length pool) r.
Proof.
  intros Hr. unfold _nCr. rewrite <- (combinations_count_fact pool r Hr).
  rewrite Nat.Div0.div_div, <- Nat.mul_assoc.
  symmetry. apply Nat.div_mul.
  pose proof (fact_neq_0 r). pose proof (fact_neq_0 (length pool - r)). nia.
Qed.

(** X12: [itertools.combinations(pool, r)] has [_nCr(len(pool), r)]
    members for [r <= len(pool)], each of them a list of [r] items of the
    pool: the number the random mode draws its positions from is the
    number of candidates there are. *)
Theorem combinations_count {A : Type} (pool : list A) (r : nat) :
  r <= length pool ->
  length (combinations pool r) = _nCr (length pool) r
  /\ forall c, In c (combinations pool r) -> length c = r /\ incl c pool.
Proof.
  intros Hr. split; [now apply combinations_length|apply combinations_members].
Qed.

Lemma combinations_count_witness :
  length (combinations [0; 1; 2; 3] 2) = _nCr 4 2
  /\ forall c, In c (combinations [0; 1; 2; 3] 2)
               -> length c = 2 /\ incl c [0; 1; 2; 3].
Proof.
  apply (combinations_count [0; 1; 2; 3] 2). cbn. lia.
Defined.

(** With every position asked for, [filterAll] yields every item. *)
Lemma filterAll_all {A : Type} (it : list A) (n i : nat) :
  i + length it = n ->
  filterAll (seq 0 n) it i i = Ok it.
Proof.
  revert i; induction it as [|val it IH]; intros i Hn; simpl; [reflexivity|].
  simpl in Hn. unfold list_get.
  rewrite nth_error_nth' with (d := 0) by (rewrite length_seq; lia).
  rewrite seq_nth by lia. cbn [bind Nat.add]. rewrite Nat.eqb_refl, length_seq.
  destruct (Nat.eqb_spec (i + 1) n) as [E|Hne].
  - destruct it; [reflexivity|simpl in Hn; lia].
  - rewrite IH by lia. reflexivity.
Qed.

(** What [filterAll] yields are items of its argument. *)
Lemma filterAll_incl {A : Type} (randIndices : list nat) (it l : list A) (i nxt : nat) :
  filterAll randIndices it i nxt = Ok l -> incl l it.
Proof.
  revert i nxt l; induction it as [|val it IH]; intros i nxt l; simpl.
  - intros [= <-]. intros y [].
  - destruct (list_get randIndices nxt) as [r|e]; [|discriminate].
    cbn [bind]. destruct (i =? r).
    + destruct (nxt + 1 =? length randIndices).
      * intros [= <-]. intros y [<-|[]]. now left.
      * destruct (filterAll randIndices it (i + 1) (nxt + 1)) as [rest|e] eqn:E;
          [|discriminate].
        intros [= <-]. intros y [<-|Hy]; [now left|right].
        now apply (IH _ _ _ E).
    + intros H y Hy. right. now apply (IH _ _ _ H).
Qed.

End CombinationFacts.

Section SearchResults.

Import fiducialpairreduction.

Variable svd : Matrix -> option (list Q).
Variable get_derivs : Z -> Matrix.
Variable randint : nat -> nat -> Z -> list nat.
Variables nRhoStrs nEStrs nGerms nSpamLabels : nat.
Variables L0 L1 : Z.
Variable tol : Q.

(** X13: in the random mode, when [nRandom] is at least the number of
    combinations, the turn for [nNeededPairs] pairs tests every
    combination, in the order of the sequential mode. *)
Theorem random_mode_exhaustive (nRandom : Z) (nNeededPairs : nat) :
  nNeededPairs <= nPossiblePairs nRhoStrs nEStrs ->
  (Z.of_nat (_nCr (nPossiblePairs nRhoStrs nEStrs) nNeededPairs) <= nRandom)%Z ->
  pairIndicesToIterateOver randint nRhoStrs nEStrs "random" nRandom nNeededPairs
  = pairIndicesToIterateOver randint nRhoStrs nEStrs "sequential" nRandom nNeededPairs.
Proof.
  intros Hk Hbig. unfold pairIndicesToIterateOver.
  cbn [String.eqb Ascii.eqb Bool.eqb]. cbv iota.
  unfold allPairIndices. rewrite length_seq.
  destruct (Z.ltb_spec nRandom
              (Z.of_nat (_nCr (nPossiblePairs nRhoStrs nEStrs) nNeededPairs))); [lia|].
  cbn [bind]. apply filterAll_all.
  rewrite combinations_length by now rewrite length_seq.
  now rewrite length_seq.
Qed.


(** The pair of an index below [nRhoStrs * nEStrs] is a pair of a
    preparation and a measurement string. *)
Lemma pairs_of_in_range (c : list nat) (iRhoStr iEStr : nat) :
  incl c (allPairIndices nRhoStrs nEStrs) ->
  In (iRhoStr, iEStr) (pairs_of nEStrs c) ->
  iRhoStr < nRhoStrs /\ iEStr < nEStrs.
Proof.
  intros Hincl Hin. unfold pairs_of in Hin.
  apply in_map_iff in Hin as (i & [= <- <-] & Hi).
  apply Hincl in Hi. unfold allPairIndices, nPossiblePairs in Hi.
  apply in_seq in Hi. cbn [Nat.add] in Hi.
  assert (HnE : nEStrs <> 0) by nia.
  split.
  - apply Nat.Div0.div_lt_upper_bound. nia.
  - pose proof (Nat.Div0.mod_eq i nEStrs) as Hmod.
    pose proof (Nat.mod_upper_bound i nEStrs HnE). nia.
Qed.

Lemma listOfAllPairs_in_range (iRhoStr iEStr : nat) :
  In (iRhoStr, iEStr) (listOfAllPairs nRhoStrs nEStrs) ->
  iRhoStr < nRhoStrs /\ iEStr < nEStrs.
Proof.
  unfold listOfAllPairs. intros Hin.
  apply in_flat_map in Hin as (r & Hr & Hin).
  apply in_map_iff in Hin as (e & [= <- <-] & He).
  apply in_seq in Hr, He. lia.
Qed.

Lemma pairIndicesToIterateOver_incl (searchMode : string) (nRandom : Z) (k : nat)
    (candidates : list (list nat)) (c : list nat) :
  pairIndicesToIterateOver randint nRhoStrs nEStrs searchMode nRandom k = Ok candidates ->
  In c candidates -> incl c (allPairIndices nRhoStrs nEStrs).
Proof.
  unfold pairIndicesToIterateOver.
  destruct (String.eqb searchMode "sequential").
  - intros [= <-] Hc. now apply (combinations_members _ k).
  - destruct (String.eqb searchMode "random"); [|discriminate].
    match goal with
    | |- context [bind ?r _] => destruct r as [randIndices|e]
    end; [|discriminate].
    cbn [bind]. intros H Hc. apply filterAll_incl in H.
    now apply (combinations_members _ k), H.
Qed.

Lemma test_candidates_member (maxAmplified : nat) (candidates : list (list nat))
    (ret : list (nat * nat)) :
  test_candidates svd get_derivs nRhoStrs nEStrs nGerms nSpamLabels L0 L1 tol
    maxAmplified candidates = Ok (Some ret) ->
  exists c, In c candidates /\ ret = pairs_of nEStrs c.
Proof.
  induction candidates as [|c candidates IH]; simpl; [discriminate|].
  destruct (nAmplified_of _ _ _ _ _ _ _ _ _ c) as [n|e]; [|discriminate].
  cbn [bind]. destruct (n =? maxAmplified).
  - intros [= <-]. exists c. split; [now left|reflexivity].
  - intros H. destruct (IH H) as (c' & Hc' & ->). exists c'. split; [now right|reflexivity].
Qed.

(** X14: whatever the mode, the sample and the matrices, the pairs the
    search returns are pairs of a preparation string and a measurement
    string of the lists it was given: [iRhoStr < len(prepStrs)] and
    [iEStr < len(effectStrs)]. *)
Theorem find_sufficient_fiducial_pairs_in_range (searchMode : string) (nRandom : Z)
    (pairs : list (nat * nat)) (iRhoStr iEStr : nat) :
  find_sufficient_fiducial_pairs svd get_derivs randint nRhoStrs nEStrs nGerms
    nSpamLabels L0 L1 tol searchMode nRandom None = Ok (Some pairs) ->
  In (iRhoStr, iEStr) pairs ->
  iRhoStr < nRhoStrs /\ iEStr < nEStrs.
Proof.
  unfold find_sufficient_fiducial_pairs.
  destruct (get_number_amplified svd tol (get_derivs L0) (get_derivs L1) L0 L1)
    as [maxAmplified|e]; [|discriminate].
  cbn [bind].
  generalize (seq 1 (nPossiblePairs nRhoStrs nEStrs - 1)). intros sizes.
  destruct (search_sizes _ _ _ _ _ _ _ _ _ _ _ _ maxAmplified sizes) as [ret|e] eqn:E;
    [|discriminate].
  cbn [bind]. intros [= <-]. revert E.
  induction sizes as [|k sizes IH]; cbn [search_sizes].
  - intros [= <-]. apply listOfAllPairs_in_range.
  - destruct (pairIndicesToIterateOver randint nRhoStrs nEStrs searchMode nRandom k)
      as [candidates|e] eqn:Ecands; [|discriminate].
    cbn [bind].
    destruct (test_candidates _ _ _ _ _ _ _ _ _ maxAmplified candidates)
      as [[found|]|e] eqn:Etest; cbn [bind]; [|exact IH|discriminate].
    intros [= <-].
    destruct (test_candidates_member _ _ _ Etest) as (c & Hc & ->).
    apply pairs_of_in_range.
    now apply (pairIndicesToIterateOver_incl searchMode nRandom k candidates).
Qed.

Lemma seq_add_map (a n : nat) : seq a n = map (fun e => a + e) (seq 0 n).
Proof.
  induction a as [|a IH]; cbn [Nat.add].
  - now rewrite map_id.
  - rewrite <- seq_shift, IH, map_map. reflexivity.
Qed.

(** X15: the list of every pair, which the search falls back to, is the
    list of the pairs of the indices [0, ..., nRhoStrs*nEStrs - 1] in their
    order, and the pair of the index [iRhoStr*nEStrs + iEStr] is
    [(iRhoStr, iEStr)]. *)
Theorem listOfAllPairs_is_pairs_of_all_indices :
  listOfAllPairs nRhoStrs nEStrs = pairs_of nEStrs (allPairIndices nRhoStrs nEStrs)
  /\ forall iRhoStr iEStr,
       iEStr < nEStrs ->
       pairs_of nEStrs [iRhoStr * nEStrs + iEStr] = [(iRhoStr, iEStr)].
Proof.
  assert (Hone : forall iRhoStr iEStr, iEStr < nEStrs ->
                   pairs_of nEStrs [iRhoStr * nEStrs + iEStr] = [(iRhoStr, iEStr)]).
  { intros r e He. unfold pairs_of. cbn [map].
    assert (Hdiv : (r * nEStrs + e) / nEStrs = r).
    { rewrite Nat.div_add_l by lia. rewrite Nat.div_small by exact He. lia. }
    rewrite Hdiv. do 2 f_equal. lia. }
  split; [|exact Hone].
  unfold listOfAllPairs, allPairIndices, nPossiblePairs, pairs_of.
  induction nRhoStrs as [|n IH].
  - reflexivity.
  - rewrite seq_S, flat_map_app. cbn [flat_map Nat.add]. rewrite app_nil_r, IH.
    replace (S n * nEStrs) with (n * nEStrs + nEStrs) by lia.
    rewrite seq_app, map_app. f_equal. cbn [Nat.add].
    rewrite (seq_add_map (n * nEStrs) nEStrs), map_map.
    apply map_ext_in. intros e He. apply in_seq in He.
    specialize (Hone n e ltac:(lia)). unfold pairs_of in Hone. cbn [map] in Hone.
    now injection Hone as -> ->.
Qed.

End SearchResults.

Lemma random_mode_exhaustive_witness :
  fiducialpairreduction.pairIndicesToIterateOver fiducialpairreduction.example_randint
    2 2 "random" 6 2
  = fiducialpairreduction.pairIndicesToIterateOver fiducialpairreduction.example_randint
      2 2 "sequential" 6 2.
Proof.
  apply random_mode_exhaustive.
  - cbn. lia.
  - cbn. lia.
Defined.

Lemma find_sufficient_fiducial_pairs_in_range_witness : 1 < 2 /\ 0 < 2.
Proof.
  apply (find_sufficient_fiducial_pairs_in_range
           fiducialpairreduction.example_svd fiducialpairreduction.example_derivs
           fiducialpairreduction.example_randint 2 2 1 1 1%Z 8%Z (3 # 4)
           "sequential"%string 100%Z [(0, 0); (1, 0)] 1 0).
  - reflexivity.
  - right. now left.
Defined.

Section FirstMatch.

Import fiducialpairreduction.

Variable svd : Matrix -> option (list Q).
Variable get_derivs : Z -> Matrix.
Variable randint : nat -> nat -> Z -> list nat.
Variables nRhoStrs nEStrs nGerms nSpamLabels : nat.
Variables L0 L1 : Z.
Variable tol : Q.

Hypothesis L0_not_zero : L0 <> 0%Z.

Local Abbreviation nAmplified_of :=
  (nAmplified_of svd get_derivs nRhoStrs nEStrs nGerms nSpamLabels L0 L1 tol).
Local Abbreviation amplified_count :=
  (amplified_count svd get_derivs nRhoStrs nEStrs nGerms nSpamLabels L0 L1 tol).
Local Abbreviation pairIndicesToIterateOver :=
  (pairIndicesToIterateOver randint nRhoStrs nEStrs).
Local Abbreviation candidates_of := (candidates_of randint nRhoStrs nEStrs).
Local Abbreviation all_candidates := (all_candidates randint nRhoStrs nEStrs).
Local Abbreviation nPossiblePairs := (nPossiblePairs nRhoStrs nEStrs).
Local Abbreviation maxAmplified_full := (maxAmplified_full svd get_derivs L0 L1 tol).

(** The combinations of [k] items of a range are its subsets of [k]
    items, listed in increasing order. *)
Lemma combinations_seq_spec (n a k : nat) (c : list nat) :
  In c (combinations (seq a n) k)
  <-> length c = k /\ StronglySorted lt c /\ Forall (fun i => a <= i < a + n) c.
Proof.
  revert a k c. induction n as [|n IH]; intros a k c; cbn [seq].
  - destruct k as [|k]; cbn [combinations In].
    + split.
      * intros [<-|[]]. repeat split; constructor.
      * intros (Hlen & _). apply length_zero_iff_nil in Hlen. now left.
    + split; [intros []|].
      intros (Hlen & _ & Hrange). destruct c as [|x c]; [discriminate Hlen|].
      inversion Hrange; subst. lia.
  - destruct k as [|k]; cbn [combinations].
    + split.
      * intros [<-|[]]. repeat split; constructor.
      * intros (Hlen & _). apply length_zero_iff_nil in Hlen. now left.
    + rewrite in_app_iff, in_map_iff. split.
      * intros [(c' & <- & Hc')|Hc].
        -- apply IH in Hc' as (Hlen & Hsorted & Hrange).
           rewrite Forall_forall in Hrange.
           split; [cbn; now rewrite Hlen|]. split.
           ++ constructor; [exact Hsorted|].
              apply Forall_forall. intros y Hy. specialize (Hrange y Hy). lia.
           ++ constructor; [lia|].
              apply Forall_forall. intros y Hy. specialize (Hrange y Hy). lia.
        -- apply IH in Hc as (Hlen & Hsorted & Hrange).
           split; [exact Hlen|]. split; [exact Hsorted|].
           rewrite Forall_forall in *. intros y Hy. specialize (Hrange y Hy). lia.
      * intros (Hlen & Hsorted & Hrange).
        destruct c as [|x c]; [discriminate Hlen|].
        inversion Hsorted as [|? ? Hsorted' Hx]; subst.
        inversion Hrange as [|? ? Hxr Hrange']; subst.
        rewrite Forall_forall in Hx, Hrange'.
        destruct (Nat.eq_dec x a) as [->|Hne].
        -- left. exists c. split; [reflexivity|].
           apply IH. split; [cbn in Hlen; lia|]. split; [exact Hsorted'|].
           apply Forall_forall. intros y Hy.
           specialize (Hx y Hy). specialize (Hrange' y Hy). lia.
        -- right. apply IH. split; [exact Hlen|]. split; [exact Hsorted|].
           constructor; [lia|].
           apply Forall_forall. intros y Hy.
           specialize (Hx y Hy). specialize (Hrange' y Hy). lia.
Qed.

Lemma combinations_allPairIndices (k : nat) (c : list nat) :
  In c (combinations (allPairIndices nRhoStrs nEStrs) k)
  <-> subset_of_size nPossiblePairs k c.
Proof.
  unfold allPairIndices, subset_of_size. rewrite combinations_seq_spec.
  cbn [Nat.add].
  assert (E : forall l, Forall (fun i => 0 <= i < nPossiblePairs) l
                        <-> Forall (fun i => i < nPossiblePairs) l).
  { intros l. rewrite !Forall_forall. split; intros H y Hy; specialize (H y Hy); lia. }
  now rewrite E.
Qed.

(** In both modes the candidates of a turn are among the combinations. *)
Lemma candidates_of_combinations (searchMode : string) (nRandom : Z) (k : nat)
    (c : list nat) :
  In c (candidates_of searchMode nRandom k) ->
  In c (combinations (allPairIndices nRhoStrs nEStrs) k).
Proof.
  unfold fiducialpairreduction.candidates_of,
    fiducialpairreduction.pairIndicesToIterateOver.
  destruct (String.eqb searchMode "sequential"); [tauto|].
  destruct (String.eqb searchMode "random"); [|intros []].
  match goal with
  | |- context [bind ?r _] => destruct r as [randIndices|e]
  end; [|intros []].
  cbn [bind].
  destruct (filterAll randIndices _ 0 0) as [l|e] eqn:E; [|intros []].
  intros Hc. now apply (filterAll_incl _ _ _ _ _ E).
Qed.

(** The list of every pair holds each pair of a preparation and a
    measurement string, once. *)
Lemma listOfAllPairs_In (iRhoStr iEStr : nat) :
  In (iRhoStr, iEStr) (listOfAllPairs nRhoStrs nEStrs)
  <-> iRhoStr < nRhoStrs /\ iEStr < nEStrs.
Proof.
  unfold listOfAllPairs. rewrite in_flat_map. split.
  - intros (r & Hr & Hin). apply in_map_iff in Hin as (e & [= <- <-] & He).
    apply in_seq in Hr, He. lia.
  - intros [Hr He]. exists iRhoStr. split; [apply in_seq; lia|].
    apply in_map_iff. exists iEStr. split; [reflexivity|apply in_seq; lia].
Qed.

Lemma NoDup_pairs (rs es : list nat) :
  NoDup rs -> NoDup es ->
  NoDup (flat_map (fun r => map (fun e => (r, e)) es) rs).
Proof.
  intros Hrs Hes. induction Hrs as [|r rs Hr Hrs IH]; cbn [flat_map]; [constructor|].
  apply NoDup_app.
  - apply NoDup_map_NoDup_ForallPairs; [|exact Hes].
    intros x y _ _ [= E]. exact E.
  - exact IH.
  - intros [r' e'] Hin Hin'.
    apply in_map_iff in Hin as (e & [= <- <-] & _).
    apply in_flat_map in Hin' as (r'' & Hr'' & Hin').
    apply in_map_iff in Hin' as (e'' & [= -> _] & _).
    contradiction.
Qed.

Lemma listOfAllPairs_NoDup : NoDup (listOfAllPairs nRhoStrs nEStrs).
Proof. apply NoDup_pairs; apply seq_NoDup. Qed.

(** The pairs of a list of indices give the indices back. *)
Lemma pairs_of_index (c : list nat) :
  map (fun pair => fst pair * nEStrs + snd pair) (pairs_of nEStrs c) = c.
Proof.
  unfold pairs_of. rewrite map_map. cbn [fst snd].
  rewrite <- (map_id c) at 2. apply map_ext. intros i.
  pose proof (Nat.Div0.mul_div_le i nEStrs). lia.
Qed.


End FirstMatch.


Section TestPairListFacts.

Import fiducialpairreduction.

Variable svd : Matrix -> option (list Q).
Variable get_derivs : Z -> Matrix.
Variable randint : nat -> nat -> Z -> list nat.
Variables nRhoStrs nEStrs nGerms nSpamLabels : nat.
Variables L0 L1 : Z.
Variable tol : Q.

(** X16: with a [testPairList] the search tests that one list and returns
    [None], whatever the mode and the sample size, as long as every pair of
    the list is a pair of the given strings; a pair that is none raises an
    [IndexError].  No subset is enumerated. *)
Theorem find_sufficient_fiducial_pairs_testPairList (searchMode : string)
    (nRandom : Z) (testPairList : list (nat * nat)) :
  (L0 <> 0%Z ->
   (forall iRhoStr iEStr, In (iRhoStr, iEStr) testPairList ->
      iRhoStr * nEStrs + iEStr < nPossiblePairs nRhoStrs nEStrs) ->
   find_sufficient_fiducial_pairs svd get_derivs randint nRhoStrs nEStrs nGerms
     nSpamLabels L0 L1 tol searchMode nRandom (Some testPairList) = Ok None)
  /\ ((exists iRhoStr iEStr, In (iRhoStr, iEStr) testPairList
         /\ nPossiblePairs nRhoStrs nEStrs <= iRhoStr * nEStrs + iEStr) ->
      find_sufficient_fiducial_pairs svd get_derivs randint nRhoStrs nEStrs nGerms
        nSpamLabels L0 L1 tol searchMode nRandom (Some testPairList)
      = Raise IndexError).
Proof.
  unfold find_sufficient_fiducial_pairs.
  match goal with
  | |- context [bind (?g testPairList) _] => set (gather := g)
  end.
  assert (Hcons : forall r e l,
            gather ((r, e) :: l)
            = if r * nEStrs + e <? nPossiblePairs nRhoStrs nEStrs
              then rest <- gather l ;;
                   Ok (gateStringIndicesForPair nRhoStrs nEStrs nGerms nSpamLabels
                         (r * nEStrs + e) ++ rest)
              else Raise IndexError) by reflexivity.
  split.
  - intros HL0 Hrange.
    assert (Hgather : exists indices, gather testPairList = Ok indices).
    { induction testPairList as [|[r e] l IH]; [now exists []|].
      rewrite Hcons.
      destruct (Nat.ltb_spec (r * nEStrs + e) (nPossiblePairs nRhoStrs nEStrs))
        as [_|Hge].
      - destruct IH as (rest & ->).
        { intros r' e' Hin. apply Hrange. now right. }
        cbn [bind]. now eexists.
      - specialize (Hrange r e ltac:(now left)). lia. }
    destruct Hgather as (indices & ->). cbn [bind].
    now rewrite get_number_amplified_ok by exact HL0.
  - intros (r & e & Hin & Hout).
    assert (Hgather : gather testPairList = Raise IndexError).
    { induction testPairList as [|[r' e'] l IH]; [destruct Hin|].
      rewrite Hcons.
      destruct (Nat.ltb_spec (r' * nEStrs + e') (nPossiblePairs nRhoStrs nEStrs))
        as [Hlt|_]; [|reflexivity].
      rewrite IH; [reflexivity|].
      destruct Hin as [[= -> ->]|Hin]; [lia|exact Hin]. }
    now rewrite Hgather.
Qed.

(** X17: the amplified count is at most the number of singular values of
    either matrix. *)
Theorem get_number_amplified_bounded (M0 M1 : Matrix) (s0 s1 : list Q) (n : nat) :
  svd M0 = Some s0 -> svd M1 = Some s1 ->
  get_number_amplified svd tol M0 M1 L0 L1 = Ok n ->
  n <= length s0 /\ n <= length s1.
Proof.
  intros H0 H1. destruct (Z.eq_dec L0 0) as [E|HL0].
  - unfold get_number_amplified. rewrite E. discriminate.
  - rewrite get_number_amplified_ok, H0, H1 by exact HL0. intros [= <-].
    pose proof (filter_length_le (is_amplified L0 L1 tol) (fun _ => true)
                  (combine (sorted_reverse s0) (sorted_reverse s1))
                  ltac:(reflexivity)) as Hle.
    rewrite filter_true, length_combine in Hle.
    assert (Hs0 : length (sorted_reverse s0) = length s0) by apply sorted_length.
    assert (Hs1 : length (sorted_reverse s1) = length s1) by apply sorted_length.
    lia.
Qed.

End TestPairListFacts.

Lemma find_sufficient_fiducial_pairs_testPairList_witness :
  fiducialpairreduction.find_sufficient_fiducial_pairs
    fiducialpairreduction.example_svd fiducialpairreduction.example_derivs
    fiducialpairreduction.example_randint 2 2 1 1 1 8 (3 # 4) "sequential" 100
    (Some [(0, 1); (1, 1)])
  = Ok None
  /\ fiducialpairreduction.find_sufficient_fiducial_pairs
       fiducialpairreduction.example_svd fiducialpairreduction.example_derivs
       fiducialpairreduction.example_randint 2 2 1 1 1 8 (3 # 4) "sequential" 100
       (Some [(0, 1); (2, 0)])
     = Raise IndexError.
Proof.
  split.
  - apply (proj1 (find_sufficient_fiducial_pairs_testPairList
                    fiducialpairreduction.example_svd
                    fiducialpairreduction.example_derivs
                    fiducialpairreduction.example_randint 2 2 1 1 1%Z 8%Z (3 # 4)
                    "sequential"%string 100%Z [(0, 1); (1, 1)])).
    + discriminate.
    + intros r e [[= <- <-]|[[= <- <-]|[]]]; cbn; lia.
  - apply (proj2 (find_sufficient_fiducial_pairs_testPairList
                    fiducialpairreduction.example_svd
                    fiducialpairreduction.example_derivs
                    fiducialpairreduction.example_randint 2 2 1 1 1%Z 8%Z (3 # 4)
                    "sequential"%string 100%Z [(0, 1); (2, 0)])).
    exists 2, 0. split; [right; now left|cbn; lia].
Defined.

Lemma get_number_amplified_bounded_witness : 2 <= 4 /\ 2 <= 4.
Proof.
  apply (get_number_amplified_bounded fiducialpairreduction.example_svd 256%Z 2048%Z
           (3 # 4)
           (fiducialpairreduction.example_derivs 256)
           (fiducialpairreduction.example_derivs 2048)
           [256%Q; 1%Q; 256%Q; 1%Q] [2048%Q; 1%Q; 2048%Q; 1%Q] 2);
    reflexivity.
Defined.

Section MergeFacts.

Import dataset.

Lemma od_get_app_none (gs k : GateString) (v : nat) (d : OrderedDict GateString nat) :
  od_get tuple_eqb gs d = None -> gs <> k ->
  od_get tuple_eqb gs (d ++ [(k, v)]) = None.
Proof.
  intros Hd Hne. induction d as [|[k' v'] d IH]; simpl in *.
  - destruct (tuple_eqb gs k) eqn:E; [|reflexivity].
    apply tuple_eqb_eq in E. contradiction.
  - destruct (tuple_eqb gs k'); [discriminate|now apply IH].
Qed.

Lemma combine_fst_snd {A B : Type} (l : list (A * B)) :
  combine (map fst l) (map snd l) = l.
Proof.
  induction l as [|[a b] l IH]; simpl; [reflexivity|now rewrite IH].
Qed.

(** Rows for new, distinct gate strings, none of which rounds to zero, are
    appended one after the other. *)
Lemma add_rows_appends (rows : list (GateString * list Q)) (t : DataSet) :
  bStatic t = false ->
  NoDup (map fst rows) ->
  (forall gs row, In (gs, row) rows ->
     od_get tuple_eqb gs (gsIndex t) = None
     /\ length row = length (slIndex t)
     /\ py_round (Qsum row) <> 0%Z) ->
  add_rows rows t
  = (Ok tt,
     mkDataSet (gsIndex t ++ combine (map fst rows) (seq (length (counts t)) (length rows)))
               (slIndex t) (counts t ++ map snd rows) false).
Proof.
  revert t; induction rows as [|[gs row] rows IH]; intros t Hmut Hnd Hrows.
  - cbn. rewrite !app_nil_r, <- Hmut. now destruct t.
  - cbn [add_rows]. unfold bindM.
    destruct (Hrows gs row ltac:(now left)) as (Hnew & Hlen & Hsum).
    assert (Hadd : add_count_list gs row t
                   = (Ok tt, mkDataSet (gsIndex t ++ [(gs, length (counts t))])
                                       (slIndex t) (counts t ++ [row]) false)).
    { unfold add_count_list. rewrite Hmut.
      destruct (Z.eqb_spec (py_round (Qsum row)) 0) as [E|_]; [contradiction|].
      rewrite Hlen, Nat.eqb_refl. cbn [negb]. rewrite Hnew.
      now rewrite (od_set_new _ _ _ _ Hnew). }
    rewrite Hadd. simpl in Hnd. inversion Hnd as [|? ? Hnotin Hnd']; subst.
    rewrite IH; cbn [gsIndex slIndex counts bStatic]; [|reflexivity|exact Hnd'|].
    + rewrite length_app. cbn [length map combine seq].
      rewrite <- !app_assoc. cbn [app].
      now replace (length (counts t) + 1) with (S (length (counts t))) by lia.
    + intros gs' row' Hin.
      destruct (Hrows gs' row' ltac:(now right)) as (Hnew' & Hlen' & Hsum').
      split; [|now split].
      apply od_get_app_none; [exact Hnew'|].
      intros ->. apply Hnotin. now apply (in_map fst) in Hin.
Qed.

(** X18: adding a data set in order, whose rows have one count per spam
    label and do not round to zero, to a new empty data set with the same
    spam labels rebuilds it: the same gate-string indices and the same
    rows. *)
Theorem add_counts_from_dataset_rebuilds (self otherDataSet : DataSet) :
  bStatic self = false ->
  gsIndex self = [] -> counts self = [] ->
  get_spam_labels self = get_spam_labels otherDataSet ->
  rows_in_order otherDataSet ->
  (forall row, In row (counts otherDataSet) ->
     length row = length (slIndex self) /\ py_round (Qsum row) <> 0%Z) ->
  add_counts_from_dataset otherDataSet self
  = (Ok tt, mkDataSet (gsIndex otherDataSet) (slIndex self) (counts otherDataSet) false).
Proof.
  intros Hmut Hgs Hcounts Hlabels [Hnd Hvals] Hrows.
  unfold add_counts_from_dataset. rewrite Hmut, Hlabels, tuple_eqb_refl. cbn [negb].
  assert (Hlen : length (od_keys (gsIndex otherDataSet))
                 = length (counts otherDataSet)).
  { unfold od_keys, od_values in *. rewrite length_map.
    rewrite <- (length_map snd), Hvals. apply length_seq. }
  unfold iteritems.
  assert (Hfst : map fst (combine (od_keys (gsIndex otherDataSet)) (counts otherDataSet))
                 = od_keys (gsIndex otherDataSet)).
  { clear -Hlen. revert Hlen.
    generalize (od_keys (gsIndex otherDataSet)), (counts otherDataSet).
    induction l as [|k l IH]; intros [|r l0] H; simpl in *; try discriminate;
      [reflexivity|]. now rewrite IH by lia. }
  assert (Hsnd : map snd (combine (od_keys (gsIndex otherDataSet)) (counts otherDataSet))
                 = counts otherDataSet).
  { clear -Hlen. revert Hlen.
    generalize (od_keys (gsIndex otherDataSet)), (counts otherDataSet).
    induction l as [|k l IH]; intros [|r l0] H; simpl in *; try discriminate;
      [reflexivity|]. now rewrite IH by lia. }
  rewrite add_rows_appends.
  - rewrite Hgs, Hcounts, Hfst, Hsnd. cbn [app length].
    rewrite length_combine, Hlen, Nat.min_id.
    unfold od_keys, od_values in *. rewrite <- Hvals.
    now rewrite combine_fst_snd.
  - exact Hmut.
  - now rewrite Hfst.
  - intros gs row Hin. rewrite Hgs. split; [reflexivity|].
    apply Hrows. apply (in_map snd) in Hin. now rewrite Hsnd in Hin.
Qed.

Lemma add_counts_from_dataset_rebuilds_witness :
  add_counts_from_dataset Gx_dataset
    (mkDataSet [] (slIndex Gx_dataset) [] false)
  = (Ok tt, Gx_dataset).
Proof.
  apply (add_counts_from_dataset_rebuilds
           (mkDataSet [] (slIndex Gx_dataset) [] false) Gx_dataset);
    try reflexivity.
  - split; cbn; [repeat constructor; intros []|reflexivity].
  - intros row [<-|[]]. split; [reflexivity|vm_compute; discriminate].
Defined.

End MergeFacts.

Section SampleFacts.

Import fiducialpairreduction.

(** [filterAll] on indices in increasing order: from position [i] on, with
    the indices before [nxt] met, it yields the items at the indices from
    [nxt] on. *)
Lemma filterAll_positions_from {A : Type} (d : A) (randIndices : list nat) :
  (forall a b, a < b < length randIndices ->
     nth a randIndices 0 < nth b randIndices 0) ->
  forall (it : list A) (i nxt : nat),
    nxt < length randIndices ->
    i <= nth nxt randIndices 0 ->
    (forall a, a < length randIndices -> nth a randIndices 0 < i + length it) ->
    filterAll randIndices it i nxt
    = Ok (map (fun j => nth (j - i) it d) (skipn nxt randIndices)).
Proof.
  intros Hinc. induction it as [|val it IH]; intros i nxt Hnxt Hi Hrange.
  - specialize (Hrange nxt Hnxt). simpl in Hrange. lia.
  - cbn [filterAll]. unfold list_get.
    rewrite nth_error_nth' with (d := 0) by exact Hnxt. cbn [bind].
    assert (Hskip : skipn nxt randIndices
                    = nth nxt randIndices 0 :: skipn (nxt + 1) randIndices).
    { clear -Hnxt. revert nxt Hnxt.
      induction randIndices as [|x l IHl]; intros [|n] H; simpl in *; try lia.
      - reflexivity.
      - now rewrite IHl by lia. }
    assert (Hlater : forall j, In j (skipn (nxt + 1) randIndices) ->
                               nth nxt randIndices 0 < j).
    { intros j Hj. apply (In_nth _ _ 0) in Hj as (a & Ha & <-).
      rewrite length_skipn in Ha. rewrite nth_skipn.
      apply Hinc. lia. }
    destruct (Nat.eqb_spec i (nth nxt randIndices 0)) as [E|Hne].
    + destruct (Nat.eqb_spec (nxt + 1) (length randIndices)) as [Hlast|Hmore].
      * rewrite Hskip, skipn_all2 by lia. cbn [map].
        now rewrite <- E, Nat.sub_diag.
      * rewrite (IH (i + 1) (nxt + 1)).
        -- cbn [bind]. rewrite Hskip. cbn [map].
           rewrite <- E, Nat.sub_diag. cbn [nth]. do 2 f_equal.
           apply map_ext_in. intros j Hj. specialize (Hlater j Hj).
           replace (j - i) with (S (j - (i + 1))) by lia. reflexivity.
        -- lia.
        -- specialize (Hinc nxt (nxt + 1) ltac:(lia)). lia.
        -- intros a Ha. specialize (Hrange a Ha). simpl in Hrange. lia.
    + rewrite (IH (i + 1) nxt).
      * rewrite Hskip. cbn [map]. f_equal.
        replace (nth nxt randIndices 0 - i)
          with (S (nth nxt randIndices 0 - (i + 1))) by lia.
        cbn [nth]. f_equal.
        apply map_ext_in. intros j Hj. specialize (Hlater j Hj).
        replace (j - i) with (S (j - (i + 1))) by lia. reflexivity.
      * exact Hnxt.
      * lia.
      * intros a Ha. specialize (Hrange a Ha). simpl in Hrange. lia.
Qed.

(** X19: given a sample of positions in strictly increasing order, all
    within the enumeration, [filterAll] yields exactly the items at those
    positions, in that order; on an empty sample it raises an [IndexError]
    at the first item. *)
Theorem filterAll_yields_sampled_positions {A : Type} (d : A)
    (randIndices : list nat) (it : list A) :
  (randIndices <> [] ->
   (forall a b, a < b < length randIndices ->
      nth a randIndices 0 < nth b randIndices 0) ->
   (forall j, In j randIndices -> j < length it) ->
   filterAll randIndices it 0 0 = Ok (map (fun j => nth j it d) randIndices))
  /\ (randIndices = [] -> it <> [] ->
      filterAll randIndices it 0 0 = Raise IndexError).
Proof.
  split.
  - intros Hne Hinc Hrange.
    rewrite (filterAll_positions_from d randIndices Hinc it 0 0).
    + cbn [skipn]. f_equal. apply map_ext. intros j. now rewrite Nat.sub_0_r.
    + destruct randIndices; [congruence|simpl; lia].
    + lia.
    + intros a Ha. cbn [Nat.add]. apply Hrange. now apply nth_In.
  - intros -> Hit. destruct it as [|val it]; [congruence|reflexivity].
Qed.

Lemma filterAll_yields_sampled_positions_witness :
  filterAll [0; 5] (combinations [0; 1; 2; 3] 2) 0 0 = Ok [[0; 1]; [2; 3]].
Proof.
  apply (proj1 (filterAll_yields_sampled_positions [] [0; 5]
                  (combinations [0; 1; 2; 3] 2))).
  - discriminate.
  - intros a b Hab. cbn in Hab.
    assert (E : a = 0 /\ b = 1) by lia. destruct E as [-> ->]. cbn. lia.
  - intros j [<-|[<-|[]]]; cbn; lia.
Defined.

End SampleFacts.

(** ** The [memoize] decorator *)

Section MemoizeFacts.

Import memoize.

Variables Args Val World : Type.
Variable args_eqb : Args -> Args -> bool.
Variable obj : Args -> World -> result Val * World.

Lemma od_get_set_kept (k k' : Args) (v v' : Val) (d : OrderedDict Args Val) :
  od_mem args_eqb k d = false ->
  od_get args_eqb k' d = Some v' ->
  od_get args_eqb k' (od_set args_eqb k v d) = Some v'.
Proof.
  unfold od_mem. induction d as [|[k0 v0] d IH]; simpl; [discriminate|].
  destruct (args_eqb k k0) eqn:E; [discriminate|]. simpl.
  destruct (args_eqb k' k0); [tauto|exact IH].
Qed.

(** A call never drops or changes an entry of the cache. *)
Lemma memoizer_keeps (a args : Args) (kwargs : list string) (v : Val)
    (cache : Cache Args Val) (w : World) :
  od_get args_eqb a cache = Some v ->
  od_get args_eqb a (fst (snd (memoizer Args Val World args_eqb obj args kwargs cache w)))
  = Some v.
Proof.
  intros Ha. unfold memoizer.
  destruct (0 <? length kwargs); [exact Ha|].
  destruct (od_mem args_eqb args cache) eqn:Hmem; cbn [negb]; [exact Ha|].
  destruct (obj args w) as [[v'|e] w']; cbn [fst snd]; [|exact Ha].
  now apply od_get_set_kept.
Qed.

Lemma calls_keep (a : Args) (v : Val) (argss : list Args) (cache : Cache Args Val)
    (w : World) :
  od_get args_eqb a cache = Some v ->
  od_get args_eqb a (fst (calls Args Val World args_eqb obj argss cache w)) = Some v.
Proof.
  revert cache w; induction argss as [|args argss IH]; intros cache w Ha; [exact Ha|].
  cbn [calls]. apply IH. now apply memoizer_keeps.
Qed.

(** X20: once a call of a memoized function on [args] has returned a
    value, every later call on [args] returns that value again, whatever
    calls came in between and whatever the function would return now; the
    function is not run and its world is left as it is. *)
Theorem memoize_value_sticks (args : Args) (v : Val) (cache cache' : Cache Args Val)
    (w w' : World) (argss : list Args) (w2 : World) :
  memoizer Args Val World args_eqb obj args [] cache w = (Ok v, (cache', w')) ->
  let state := calls Args Val World args_eqb obj argss cache' w2 in
  memoizer Args Val World args_eqb obj args [] (fst state) (snd state) = (Ok v, state).
Proof.
  intros Hcall. cbv zeta.
  assert (Hstored : od_get args_eqb args cache' = Some v).
  { unfold memoizer in Hcall. cbn [length Nat.ltb Nat.leb] in Hcall.
    destruct (od_mem args_eqb args cache); cbn [negb] in Hcall.
    - injection Hcall as Hv <- _.
      destruct (od_get args_eqb args cache); congruence.
    - destruct (obj args w) as [[v0|e] w0]; [|discriminate].
      injection Hcall as Hv <- _.
      destruct (od_get args_eqb args (od_set args_eqb args v0 cache)); congruence. }
  pose proof (calls_keep args v argss cache' w2 Hstored) as Hlater.
  destruct (calls Args Val World args_eqb obj argss cache' w2) as [c2 w3].
  cbn [fst snd] in *. unfold memoizer. cbn [length Nat.ltb Nat.leb].
  unfold od_mem. now rewrite Hlater.
Qed.

End MemoizeFacts.

(** A function that counts its calls: its first value for [3] is kept
    though a second run would give another. *)
Lemma memoize_value_sticks_witness :
  memoize.memoizer nat nat nat Nat.eqb (fun args w => (Ok (args + w), S w)) 3 [] [] 0
  = (Ok 3, ([(3, 3)], 1)) /\
  memoize.memoizer nat nat nat Nat.eqb (fun args w => (Ok (args + w), S w)) 3 []
    (fst (memoize.calls nat nat nat Nat.eqb (fun args w => (Ok (args + w), S w))
            [5; 3] [(3, 3)] 1))
    (snd (memoize.calls nat nat nat Nat.eqb (fun args w => (Ok (args + w), S w))
            [5; 3] [(3, 3)] 1))
  = (Ok 3, memoize.calls nat nat nat Nat.eqb (fun args w => (Ok (args + w), S w))
             [5; 3] [(3, 3)] 1).
Proof.
  split; [reflexivity|].
  apply (memoize_value_sticks nat nat nat Nat.eqb
           (fun args w => (Ok (args + w), S w)) 3 3 [] [(3, 3)] 0 1 [5; 3] 1).
  reflexivity.
Defined.
